(** * SimpleMediaDownloader: a shallow embedding of the batch download
      orchestrator of [SimpleMediaDownloader.py]

    Python values are modelled as follows.
    - [str] is [string] (a sequence of 8-bit characters); the character
      classes used by [str.isdigit], [str.strip] and [str.lower] are the
      ASCII ones.
    - [int] is [Z].
    - the tuples [(url, desc, error)] of [FAILED_DOWNLOADS] are triples of
      strings, the list itself a [list].
    - option dictionaries ([ydl_opts]) are [gmap string PyVal].
    - the [defaultdict(list)] of the retry-all path is an association list
      in insertion order, the order in which [.items()] yields it.
    - [yt_dlp], the thread pool, the file system and the console are
      collaborators outside the program; they appear as type classes whose
      methods give the outcome of each call. *)

From Stdlib Require Import ZArith Ascii String List.
From stdpp Require Import base decidable option list sorting gmap strings pretty.

Local Open Scope string_scope.
Local Open Scope Z_scope.
Local Open Scope list_scope.

(** ** Python string primitives *)

Module Py.

(** [c.isdigit()] for one character. *)
Definition is_digit (c : ascii) : bool :=
  let n := nat_of_ascii c in (48 <=? n)%nat && (n <=? 57)%nat.

(** [c.isspace()] for one character: TAB, LF, VT, FF, CR, FS, GS, RS, US
    and the space. *)
Definition is_space (c : ascii) : bool :=
  let n := nat_of_ascii c in
  ((9 <=? n)%nat && (n <=? 13)%nat) || ((28 <=? n)%nat && (n <=? 32)%nat).

Fixpoint all_digits (s : string) : bool :=
  match s with
  | EmptyString => true
  | String c s' => is_digit c && all_digits s'
  end.

(** [s.isdigit()]: at least one character and every character a digit. *)
Definition isdigit (s : string) : bool :=
  match s with
  | EmptyString => false
  | _ => all_digits s
  end.

Definition digit_value (c : ascii) : Z := Z.of_nat (nat_of_ascii c) - 48.

Fixpoint int_acc (acc : Z) (s : string) : Z :=
  match s with
  | EmptyString => acc
  | String c s' => int_acc (10 * acc + digit_value c) s'
  end.

(** [int(s)] on a string for which [s.isdigit()] holds. *)
Definition int (s : string) : Z := int_acc 0 s.

Fixpoint lstrip (s : string) : string :=
  match s with
  | EmptyString => EmptyString
  | String c s' => if is_space c then lstrip s' else s
  end.

Fixpoint rstrip (s : string) : string :=
  match s with
  | EmptyString => EmptyString
  | String c s' =>
      match rstrip s' with
      | EmptyString => if is_space c then EmptyString else String c EmptyString
      | r => String c r
      end
  end.

(** [s.strip()] *)
Definition strip (s : string) : string := rstrip (lstrip s).

Definition lower_char (c : ascii) : ascii :=
  let n := nat_of_ascii c in
  if (65 <=? n)%nat && (n <=? 90)%nat then ascii_of_nat (n + 32) else c.

(** [s.lower()] *)
Fixpoint lower (s : string) : string :=
  match s with
  | EmptyString => EmptyString
  | String c s' => String (lower_char c) (lower s')
  end.

(** [needle in hay] *)
Fixpoint contains (needle hay : string) : bool :=
  String.prefix needle hay ||
  match hay with
  | EmptyString => false
  | String _ hay' => contains needle hay'
  end.

(** [s.split(sep)] for a one-character separator: never the empty list. *)
Fixpoint split (sep : ascii) (s : string) : list string :=
  match s with
  | EmptyString => [EmptyString]
  | String c s' =>
      if Ascii.eqb c sep then EmptyString :: split sep s'
      else match split sep s' with
           | [] => [String c EmptyString]
           | w :: ws => String c w :: ws
           end
  end.

(** [s.startswith(p)] *)
Definition startswith (p s : string) : bool := String.prefix p s.

Definition newline : ascii := ascii_of_nat 10.

(** [os.path.join(a, b)] with the POSIX separator. *)
Definition path_join (a b : string) : string :=
  if startswith "/" b then b
  else match String.rev a with
       | EmptyString => b
       | String c _ => if Ascii.eqb c "/" then a +:+ b else a +:+ "/" +:+ b
       end.

End Py.

(** ** Session state *)

(** One entry of [FAILED_DOWNLOADS]: [(url, desc, error)]. *)
Definition FailureRecord : Type := string * string * string.

Definition fr_url (r : FailureRecord) : string := r.1.1.
Definition fr_desc (r : FailureRecord) : string := r.1.2.
Definition fr_error (r : FailureRecord) : string := r.2.

(** Values stored in a [ydl_opts] dictionary. *)
#[warnings="-register-all"]
Inductive PyVal : Type :=
  | VBool (b : bool)
  | VInt (n : Z)
  | VStr (s : string)
  | VFunc (name : string)
  | VList (l : list PyVal)
  | VDict (d : list (string * PyVal)).

(** One batch handed to the worker pool: a call of [run_download] with a
    non-empty [urls], together with the content of [FAILED_DOWNLOADS] at the
    moment the call was made. *)
Record BatchCall : Type := mkBatchCall {
  bc_opts : gmap string PyVal;
  bc_urls : list string;
  bc_desc : string;
  bc_registry : list FailureRecord
}.

(** The module-level globals [MAX_WORKERS] and [FAILED_DOWNLOADS], and the
    history of the batches issued so far in the session. *)
Record State : Type := mkState {
  MAX_WORKERS : Z;
  FAILED_DOWNLOADS : list FailureRecord;
  issued : list BatchCall
}.

Definition initial_state : State :=
  {| MAX_WORKERS := 5; FAILED_DOWNLOADS := []; issued := [] |}.

Definition set_MAX_WORKERS (n : Z) (s : State) : State :=
  {| MAX_WORKERS := n; FAILED_DOWNLOADS := FAILED_DOWNLOADS s; issued := issued s |}.

Definition set_FAILED_DOWNLOADS (l : list FailureRecord) (s : State) : State :=
  {| MAX_WORKERS := MAX_WORKERS s; FAILED_DOWNLOADS := l; issued := issued s |}.

(** ** Thread settings *)

(** [download_thread_settings]: [answer] is what [input] returns, [None]
    when it raises [EOFError]. *)
Definition download_thread_settings (answer : option string) (s : State) : State :=
  match answer with
  | None => s
  | Some line =>
      let new_value := Py.strip line in
      if negb (Py.isdigit new_value) then s
      else
        let num := Py.int new_value in
        if (1 <=? num)%Z then set_MAX_WORKERS num s else s
  end.


(** ** Collaborators *)

(** How a call into a collaborator ends: it returns a value, or it raises an
    [Exception] [e] with [str(e) = msg]. *)
Inductive Outcome (A : Type) : Type :=
  | Returned (a : A)
  | Raised (msg : string).
Arguments Returned {A} a.
Arguments Raised {A} msg.

(** [yt_dlp.YoutubeDL(ydl_opts).download([url])]. The call is identified by
    the number of the batch it belongs to (the number of batches issued
    before it) and by the position of its url in that batch. *)
Class MediaFetcher : Type := {
  ydl_download : nat → nat → gmap string PyVal → string → Outcome unit
}.

(** [concurrent.futures.ThreadPoolExecutor]: for a pool of [max_workers]
    workers running the [n] tasks of batch number [batch], the positions of
    the tasks in the order in which they complete. *)
Class ThreadPool : Type := {
  completion_order : Z → nat → nat → list nat
}.

(** One entry of [info['entries']]: its ['url'] key may be missing. *)
Record Entry : Type := mkEntry { entry_url : option string }.

(** The dictionary returned by [extract_info]: the keys ['title'] and
    ['entries'] may be missing. *)
Record Info : Type := mkInfo {
  info_title : option string;
  info_entries : option (list Entry)
}.

(** [YoutubeDL(extract_opts).extract_info(pl_url, download=False)]. *)
Class PlaylistResolver : Type := {
  extract_info : string → Outcome Info
}.

(** The console and the file system: the directory [get_output_dir] returns
    when it is called after [k] batches, [os.makedirs(path, exist_ok=True)]
    and [yt_dlp.utils.sanitize_filename]. *)
Class Host : Type := {
  get_output_dir : nat → string;
  makedirs : string → Outcome unit;
  sanitize_filename : string → string
}.

(** The six components of [urllib.parse.urlparse(url)]. *)
Record ParseResult : Type := mkParseResult {
  scheme : string;
  netloc : string;
  path : string;
  params : string;
  query : string;
  fragment : string
}.

(** [urllib.parse.urlparse] and [urllib.parse.parse_qs]. *)
Class UrlLib : Type := {
  urlparse : string → Outcome ParseResult;
  parse_qs : string → Outcome (gmap string (list string))
}.

(** ** yt-dlp option templates *)

(** [d.update(new)] *)
Definition update (new d : gmap string PyVal) : gmap string PyVal := new ∪ d.

Definition base_ydl_opts (output_dir : string) : gmap string PyVal :=
  {[ "retries" := VInt 5;
     "fragment_retries" := VInt 10;
     "continuedl" := VBool true;
     "nooverwrites" := VBool true;
     "progress_hooks" := VList [VFunc "progress_hook"];
     "outtmpl" := VStr (Py.path_join output_dir "%(title)s [%(id)s].%(ext)s");
     "writethumbnail" := VBool false;
     "quiet" := VBool false;
     "verbose" := VBool false ]}.

Definition video_postprocessors : PyVal :=
  VList [ VDict [("key", VStr "FFmpegVideoConvertor"); ("preferedformat", VStr "mp4")];
          VDict [("key", VStr "FFmpegMetadata")] ].

Definition audio_postprocessors : PyVal :=
  VList [ VDict [("key", VStr "FFmpegExtractAudio"); ("preferredcodec", VStr "mp3");
                 ("preferredquality", VStr "0")];
          VDict [("key", VStr "FFmpegMetadata")] ].

(** The three [{'format': ..., 'postprocessors': ...}] literals. *)
Definition video_with_audio_params : gmap string PyVal :=
  {[ "format" := VStr "bestvideo+bestaudio"; "postprocessors" := video_postprocessors ]}.

Definition audio_params : gmap string PyVal :=
  {[ "format" := VStr "bestaudio/best"; "postprocessors" := audio_postprocessors ]}.

Definition video_only_params : gmap string PyVal :=
  {[ "format" := VStr "bestvideo"; "postprocessors" := video_postprocessors ]}.

(** The options [_retry_downloads] builds for [mode] before it calls
    [run_download_with_log]. *)
Definition retry_ydl_opts (output_dir mode : string) : gmap string PyVal :=
  let ydl_opts := base_ydl_opts output_dir in
  let is_playlist := Py.contains "Playlist" mode in
  let ydl_opts :=
    if is_playlist then
      let playlist_dir := Py.path_join output_dir "%(playlist_title)s" in
      <["noplaylist" := VBool false]>
        (<["outtmpl" := VStr (Py.path_join playlist_dir "%(title)s [%(id)s].%(ext)s")]> ydl_opts)
    else <["noplaylist" := VBool true]> ydl_opts in
  if Py.contains "Video with Audio" mode then update video_with_audio_params ydl_opts
  else if Py.contains "Audio" mode then update audio_params ydl_opts
  else if Py.contains "Video without Audio" mode then update video_only_params ydl_opts
  else ydl_opts.

(** The options of the three single-item menu entries. *)
Definition single_ydl_opts (params : gmap string PyVal) (output_dir : string) : gmap string PyVal :=
  update (<["noplaylist" := VBool true]> params) (base_ydl_opts output_dir).

(** The options of the three playlist menu entries. *)
Definition playlist_ydl_opts (params : gmap string PyVal) (output_dir playlist_dir : string)
    : gmap string PyVal :=
  update params
    (<["noplaylist" := VBool true]>
       (<["outtmpl" := VStr (Py.path_join playlist_dir "%(title)s [%(id)s].%(ext)s")]>
          (base_ydl_opts output_dir))).

(** ** Shared download functions *)

(** [str(e).split('\n')[0]] *)
Definition first_line (msg : string) : string :=
  default "" (Py.split Py.newline msg !! 0%nat).

(** [download_single]: [None] is the [return None] of the success path. *)
Definition download_single `{MediaFetcher} (batch i : nat)
    (ydl_opts : gmap string PyVal) (url desc : string) : option FailureRecord :=
  match ydl_download batch i ydl_opts url with
  | Returned _ => None
  | Raised e => let err_msg := first_line e in Some (url, desc, err_msg)
  end.

(** The two local lists of [run_download]. *)
Record BatchOutcome : Type := mkBatchOutcome {
  succeeded : list string;
  failed : list FailureRecord
}.

Definition empty_outcome : BatchOutcome := {| succeeded := []; failed := [] |}.

Definition succeeded_append (url : string) (out : BatchOutcome) : BatchOutcome :=
  {| succeeded := succeeded out ++ [url]; failed := failed out |}.

Definition failed_append (r : FailureRecord) (out : BatchOutcome) : BatchOutcome :=
  {| succeeded := succeeded out; failed := failed out ++ [r] |}.

(** The futures of a pool once the tasks have completed in the order
    [order]: a future is [None] while its task has not completed. *)
Definition pool_futures {R : Type} (order : list nat) (tasks : list R) : list (option R) :=
  foldl (λ futures i,
           match tasks !! i with
           | Some r => <[i := Some r]> futures
           | None => futures
           end)
        (replicate (length tasks) None) order.

(** [with ThreadPoolExecutor(max_workers=...) as executor:] followed by the
    submission of [tasks] and [concurrent.futures.wait(futures)]. The result
    is [None] when control does not reach the statement after [wait]: the
    constructor raises [ValueError] for [max_workers <= 0], and [wait] does
    not return while a future is pending. *)
Definition executor_wait `{ThreadPool} {R : Type} (max_workers : Z) (batch : nat)
    (tasks : list R) : option (list R) :=
  if (max_workers <=? 0)%Z then None
  else mapM id (pool_futures (completion_order max_workers batch (length tasks)) tasks).

(** The loop [for i, future in enumerate(futures)] of [run_download],
    entered at index [i]. *)
Fixpoint collect (urls : list string) (desc : string) (i : nat)
    (futures : list (Outcome (option FailureRecord))) (out : BatchOutcome)
    : option BatchOutcome :=
  match futures with
  | [] => Some out
  | future :: futures' =>
      url ← urls !! i;
      collect urls desc (S i) futures'
        match future with
        | Returned (Some result) => failed_append result out
        | Returned None => succeeded_append url out
        | Raised exc => let err_msg := first_line exc in failed_append (url, desc, err_msg) out
        end
  end.

(** The copy of [ydl_opts] the concurrent branch of [run_download] uses. *)
Definition concurrent_ydl_opts (ydl_opts : gmap string PyVal) : gmap string PyVal :=
  <["quiet" := VBool true]> (<["progress_hooks" := VList []]> ydl_opts).

(** [run_download]. The result is [None] when the call does not return
    normally (see [executor_wait]); otherwise it is the state after the call
    together with the local lists [succeeded] and [failed]. *)
Definition run_download `{MediaFetcher} `{ThreadPool} (ydl_opts : gmap string PyVal)
    (urls : list string) (desc : string) (s : State) : option (State * BatchOutcome) :=
  match urls with
  | [] => Some (s, empty_outcome)
  | _ =>
      let batch := length (issued s) in
      let call := mkBatchCall ydl_opts urls desc (FAILED_DOWNLOADS s) in
      out ←
        match urls with
        | [url] =>
            let result := download_single batch 0 ydl_opts url desc in
            Some match result with
                 | Some r => failed_append r empty_outcome
                 | None => succeeded_append url empty_outcome
                 end
        | _ =>
            futures ← executor_wait (MAX_WORKERS s) batch
                        (imap (λ i url,
                                 Returned (download_single batch i (concurrent_ydl_opts ydl_opts)
                                             url desc))
                              urls);
            collect urls desc 0 futures empty_outcome
        end;
      let registry :=
        match failed out with
        | [] => FAILED_DOWNLOADS s
        | _ => FAILED_DOWNLOADS s ++ failed out
        end in
      Some ({| MAX_WORKERS := MAX_WORKERS s;
               FAILED_DOWNLOADS := registry;
               issued := issued s ++ [call] |}, out)
  end.

(** [run_download_with_log] *)
Definition run_download_with_log `{MediaFetcher} `{ThreadPool} (ydl_opts : gmap string PyVal)
    (urls : list string) (desc : string) (s : State) : option State :=
  fst <$> run_download ydl_opts urls desc s.

(** [_retry_downloads] *)
Definition _retry_downloads `{MediaFetcher} `{ThreadPool} `{Host}
    (urls : list string) (mode : string) (s : State) : option State :=
  let output_dir := get_output_dir (length (issued s)) in
  run_download_with_log (retry_ydl_opts output_dir mode) urls mode s.

(** ** Resume failed downloads *)

(** [failed_by_desc[d].append(url)] on a [defaultdict(list)]: a new key goes
    to the end, as [.items()] yields the keys in insertion order. *)
Fixpoint dict_append (d : string) (url : string) (failed_by_desc : list (string * list string))
    : list (string * list string) :=
  match failed_by_desc with
  | [] => [(d, [url])]
  | (k, urls) :: rest =>
      if decide (k = d) then (k, urls ++ [url]) :: rest
      else (k, urls) :: dict_append d url rest
  end.

(** The loop [for url, d, err in FAILED_DOWNLOADS] of the retry-all branch. *)
Definition group_by_desc (registry : list FailureRecord) : list (string * list string) :=
  foldl (λ failed_by_desc '(url, d, err), dict_append d url failed_by_desc) [] registry.

(** The loop [for desc, urls in failed_by_desc.items()]. *)
Fixpoint retry_groups `{MediaFetcher} `{ThreadPool} `{Host}
    (groups : list (string * list string)) (s : State) : option State :=
  match groups with
  | [] => Some s
  | (desc, urls) :: rest =>
      s' ← _retry_downloads urls desc s;
      retry_groups rest s'
  end.

(** [idxs] of the branch [',' in choice]. *)
Definition parse_indices (choice : string) : list Z :=
  (λ i, Py.int (Py.strip i) - 1) <$>
    filter (λ i, Py.isdigit (Py.strip i) = true) (Py.split "," choice).

(** [sorted(idxs, reverse=True)] *)
Definition sorted_reverse (idxs : list Z) : list Z :=
  merge_sort (flip Z.le) idxs.

(** One turn of [for idx in sorted(idxs, reverse=True)]: the pair is
    [(FAILED_DOWNLOADS, to_retry)]. *)
Definition pop_step (acc : list FailureRecord * list FailureRecord) (idx : Z)
    : list FailureRecord * list FailureRecord :=
  let '(registry, to_retry) := acc in
  if (0 <=? idx) && (idx <? Z.of_nat (length registry)) then
    match registry !! Z.to_nat idx with
    | Some r => (delete (Z.to_nat idx) registry, to_retry ++ [r])
    | None => acc
    end
  else acc.

Definition pop_selected (sel : list Z) (registry : list FailureRecord)
    : list FailureRecord * list FailureRecord :=
  foldl pop_step (registry, []) sel.

(** The loop [for url, desc, _ in ...: _retry_downloads([url], desc)]. *)
Fixpoint retry_each `{MediaFetcher} `{ThreadPool} `{Host}
    (records : list FailureRecord) (s : State) : option State :=
  match records with
  | [] => Some s
  | (url, desc, _) :: rest =>
      s' ← _retry_downloads [url] desc s;
      retry_each rest s'
  end.

(** [resume_failed_downloads], where [line] is what [input] returns at the
    prompt [Choose action]. *)
Definition resume_failed_downloads `{MediaFetcher} `{ThreadPool} `{Host}
    (line : string) (s : State) : option State :=
  match FAILED_DOWNLOADS s with
  | [] => Some s
  | _ =>
      let choice := Py.lower (Py.strip line) in
      if decide (choice = "c") then Some s
      else if decide (choice = "a") then
        let failed_by_desc := group_by_desc (FAILED_DOWNLOADS s) in
        retry_groups failed_by_desc (set_FAILED_DOWNLOADS [] s)
      else if Py.contains "," choice then
        let idxs := parse_indices choice in
        let '(registry, to_retry) := pop_selected (sorted_reverse idxs) (FAILED_DOWNLOADS s) in
        retry_each (reverse to_retry) (set_FAILED_DOWNLOADS registry s)
      else if Py.isdigit choice then
        let idx := Py.int choice - 1 in
        if (0 <=? idx) && (idx <? Z.of_nat (length (FAILED_DOWNLOADS s))) then
          match FAILED_DOWNLOADS s !! Z.to_nat idx with
          | Some (url, desc, _) =>
              _retry_downloads [url] desc
                (set_FAILED_DOWNLOADS (delete (Z.to_nat idx) (FAILED_DOWNLOADS s)) s)
          | None => Some s
          end
        else Some s
      else Some s
  end.

(** ** Playlist mode *)

(** How one turn of the loop [for pl_url in urls] ends. *)
Inductive PlaylistVerdict : Type :=
  | NotAPlaylist
  | ProcessingError (msg : string)
  | Processed (playlist_dir : string) (video_urls : list string) (out : BatchOutcome).

(** The body of the loop [for pl_url in urls] of the three playlist
    functions, which differ in [params] and [desc] only. *)
Definition process_playlist `{MediaFetcher} `{ThreadPool} `{Host} `{PlaylistResolver}
    (params : gmap string PyVal) (desc output_dir pl_url : string) (s : State)
    : option (State * PlaylistVerdict) :=
  match extract_info pl_url with
  | Raised e => Some (s, ProcessingError e)
  | Returned info =>
      match info_entries info with
      | None => Some (s, NotAPlaylist)
      | Some entries =>
          let playlist_title := default "Unknown_Playlist" (info_title info) in
          let playlist_dir := Py.path_join output_dir (sanitize_filename playlist_title) in
          match makedirs playlist_dir with
          | Raised e => Some (s, ProcessingError e)
          | Returned _ =>
              let video_urls := omap entry_url entries in
              let ydl_opts := playlist_ydl_opts params output_dir playlist_dir in
              '(s', out) ← run_download ydl_opts video_urls desc s;
              Some (s', Processed playlist_dir video_urls out)
          end
      end
  end.

Fixpoint process_playlists `{MediaFetcher} `{ThreadPool} `{Host} `{PlaylistResolver}
    (params : gmap string PyVal) (desc output_dir : string) (urls : list string) (s : State)
    : option (State * list PlaylistVerdict) :=
  match urls with
  | [] => Some (s, [])
  | pl_url :: rest =>
      '(s', v) ← process_playlist params desc output_dir pl_url s;
      '(s'', vs) ← process_playlists params desc output_dir rest s';
      Some (s'', v :: vs)
  end.

(** [download_video_with_audio_playlist], [download_audio_playlist] and
    [download_video_only_playlist], where [urls] is what [get_urls]
    returned. *)
Definition download_video_with_audio_playlist
    `{MediaFetcher} `{ThreadPool} `{Host} `{PlaylistResolver}
    (urls : list string) (s : State) : option (State * list PlaylistVerdict) :=
  match urls with
  | [] => Some (s, [])
  | _ =>
      let output_dir := get_output_dir (length (issued s)) in
      process_playlists video_with_audio_params "Playlist Video with Audio" output_dir urls s
  end.

Definition download_audio_playlist
    `{MediaFetcher} `{ThreadPool} `{Host} `{PlaylistResolver}
    (urls : list string) (s : State) : option (State * list PlaylistVerdict) :=
  match urls with
  | [] => Some (s, [])
  | _ =>
      let output_dir := get_output_dir (length (issued s)) in
      process_playlists audio_params "Playlist Audio" output_dir urls s
  end.

Definition download_video_only_playlist
    `{MediaFetcher} `{ThreadPool} `{Host} `{PlaylistResolver}
    (urls : list string) (s : State) : option (State * list PlaylistVerdict) :=
  match urls with
  | [] => Some (s, [])
  | _ =>
      let output_dir := get_output_dir (length (issued s)) in
      process_playlists video_only_params "Playlist Video without Audio" output_dir urls s
  end.

(** The three single-item menu entries, where [urls] is what [get_urls]
    returned. *)
Definition download_single_mode `{MediaFetcher} `{ThreadPool} `{Host}
    (params : gmap string PyVal) (desc : string) (urls : list string) (s : State)
    : option (State * BatchOutcome) :=
  match urls with
  | [] => Some (s, empty_outcome)
  | _ =>
      let output_dir := get_output_dir (length (issued s)) in
      run_download (single_ydl_opts params output_dir) urls desc s
  end.

Definition download_video_with_audio `{MediaFetcher} `{ThreadPool} `{Host} :=
  download_single_mode video_with_audio_params "Video with Audio".

Definition download_audio_single `{MediaFetcher} `{ThreadPool} `{Host} :=
  download_single_mode audio_params "Audio".

Definition download_video_only_single `{MediaFetcher} `{ThreadPool} `{Host} :=
  download_single_mode video_only_params "Video without Audio".

(** ** URL intake *)

Definition is_alpha (c : ascii) : bool :=
  let n := nat_of_ascii c in
  ((65 <=? n)%nat && (n <=? 90)%nat) || ((97 <=? n)%nat && (n <=? 122)%nat).

(** The class [\w] of the regular expression. *)
Definition is_word_char (c : ascii) : bool :=
  is_alpha c || Py.is_digit c || Ascii.eqb c "_".

(** The class [[\da-fA-F]]. *)
Definition is_hex_digit (c : ascii) : bool :=
  let n := nat_of_ascii c in
  Py.is_digit c || ((65 <=? n)%nat && (n <=? 70)%nat) || ((97 <=? n)%nat && (n <=? 102)%nat).

(** [s] without its prefix [p], when it has that prefix. *)
Fixpoint strip_prefix (p s : string) : option string :=
  match p with
  | EmptyString => Some s
  | String a p' =>
      match s with
      | EmptyString => None
      | String b s' => if Ascii.eqb a b then strip_prefix p' s' else None
      end
  end.

(** [is_valid_url]: [re.match] of [^https?://(?:[-\w.]|(?:%[\da-fA-F]{2}))+],
    which needs one repetition of the group and is not anchored at the end. *)
Definition is_valid_url (url : string) : bool :=
  match strip_prefix "http" url with
  | None => false
  | Some r =>
      let after_scheme :=
        match strip_prefix "s" r with
        | Some r' => strip_prefix "://" r'
        | None => strip_prefix "://" r
        end in
      match after_scheme with
      | Some (String c rest) =>
          if Ascii.eqb c "-" || is_word_char c || Ascii.eqb c "." then true
          else if Ascii.eqb c "%" then
            match rest with
            | String h1 (String h2 _) => is_hex_digit h1 && is_hex_digit h2
            | _ => false
            end
          else false
      | _ => false
      end
  end.

(** [k in qs] *)
Definition dict_has {V : Type} (k : string) (qs : gmap string V) : bool :=
  bool_decide (is_Some (qs !! k)).

(** [is_pure_playlist_url]: the bare [except] turns every exception of the
    two library calls into [False]. *)
Definition is_pure_playlist_url `{UrlLib} (url : string) : bool :=
  match urlparse url with
  | Raised _ => false
  | Returned parsed =>
      let domain := Py.lower (netloc parsed) in
      if Py.contains "youtube.com" domain || Py.contains "youtu.be" domain then
        match parse_qs (query parsed) with
        | Raised _ => false
        | Returned qs => dict_has "list" qs && negb (dict_has "v" qs)
        end
      else false
  end.

(** [get_urls]: [lines] are the lines [input] returns, one per call; when
    they are used up [input] raises [EOFError]. *)
Fixpoint get_urls `{UrlLib} (expect_playlist : bool) (lines : list string) : list string :=
  match lines with
  | [] => []
  | line :: rest =>
      let url := Py.strip line in
      if decide (url = "") then []
      else if negb (is_valid_url url) then get_urls expect_playlist rest
      else if negb expect_playlist && is_pure_playlist_url url then get_urls expect_playlist rest
      else url :: get_urls expect_playlist rest
  end.

(** ** A model of [urllib.parse]

    The functions below follow CPython's [urlsplit], [urlparse], [unquote]
    and [parse_qs] on byte strings, without the validation of bracketed
    hosts. They give the examples below a library to run on; the theorems
    about [is_pure_playlist_url] hold for every [UrlLib]. *)

Module Urllib.

(** The longest prefix of [s] with no character in [stop], and what
    follows it. *)
Fixpoint break_at (stop : ascii → bool) (s : string) : string * string :=
  match s with
  | EmptyString => (EmptyString, EmptyString)
  | String c s' =>
      if stop c then (EmptyString, s)
      else let '(a, b) := break_at stop s' in (String c a, b)
  end.

(** [s.split(c, 1)] when [c] occurs in [s]. *)
Definition split_once (c : ascii) (s : string) : option (string * string) :=
  match break_at (Ascii.eqb c) s with
  | (a, String _ b) => Some (a, b)
  | (_, EmptyString) => None
  end.

Fixpoint str_filter (keep : ascii → bool) (s : string) : string :=
  match s with
  | EmptyString => EmptyString
  | String c s' => if keep c then String c (str_filter keep s') else str_filter keep s'
  end.

Fixpoint str_forall (p : ascii → bool) (s : string) : bool :=
  match s with
  | EmptyString => true
  | String c s' => p c && str_forall p s'
  end.

Definition has_char (c : ascii) (s : string) : bool := negb (str_forall (λ x, negb (Ascii.eqb x c)) s).

Fixpoint lstrip_c0 (s : string) : string :=
  match s with
  | EmptyString => EmptyString
  | String c s' => if (nat_of_ascii c <=? 32)%nat then lstrip_c0 s' else s
  end.

Definition is_scheme_char (c : ascii) : bool :=
  is_alpha c || Py.is_digit c || Ascii.eqb c "+" || Ascii.eqb c "-" || Ascii.eqb c ".".

Definition uses_params : list string :=
  [""; "ftp"; "hdl"; "prospero"; "http"; "imap"; "https"; "shttp"; "rtsp"; "rtsps";
   "rtspu"; "sip"; "sips"; "mms"; "sftp"; "tel"].

(** [_splitparams]: the first [;] of the last path segment. *)
Fixpoint splitparams (url : string) : string * string :=
  match url with
  | EmptyString => (EmptyString, EmptyString)
  | String c url' =>
      if has_char "/" url' then
        let '(a, b) := splitparams url' in (String c a, b)
      else
        match split_once ";" url with
        | Some (a, b) => (a, b)
        | None => (url, EmptyString)
        end
  end.

Definition urlparse (url : string) : Outcome ParseResult :=
  let url := lstrip_c0 url in
  let url := str_filter (λ c, negb (Ascii.eqb c (ascii_of_nat 9) || Ascii.eqb c (ascii_of_nat 10)
                                    || Ascii.eqb c (ascii_of_nat 13))) url in
  let '(scheme, url) :=
    match split_once ":" url with
    | Some (String c0 pre, rest) =>
        if is_alpha c0 && str_forall is_scheme_char (String c0 pre)
        then (Py.lower (String c0 pre), rest) else (EmptyString, url)
    | _ => (EmptyString, url)
    end in
  let '(netloc, url) :=
    match strip_prefix "//" url with
    | Some r => break_at (λ c, Ascii.eqb c "/" || Ascii.eqb c "?" || Ascii.eqb c "#") r
    | None => (EmptyString, url)
    end in
  if xorb (has_char "[" netloc) (has_char "]" netloc) then Raised "Invalid IPv6 URL"
  else
    let '(url, fragment) := default (url, EmptyString) (split_once "#" url) in
    let '(url, query) := default (url, EmptyString) (split_once "?" url) in
    let '(url, params) :=
      if bool_decide (scheme ∈ uses_params) && has_char ";" url then splitparams url
      else (url, EmptyString) in
    Returned (mkParseResult scheme netloc url params query fragment).

Definition hex_value (c : ascii) : nat :=
  let n := nat_of_ascii c in
  if Py.is_digit c then n - 48
  else if (97 <=? n)%nat then n - 87 else n - 55.

(** [unquote]: [%XX] becomes the byte [XX]; a [%] not followed by two
    hexadecimal digits stays. *)
Fixpoint unquote (s : string) : string :=
  match s with
  | EmptyString => EmptyString
  | String c s' =>
      match s' with
      | String h1 (String h2 rest) =>
          if Ascii.eqb c "%" && is_hex_digit h1 && is_hex_digit h2
          then String (ascii_of_nat (16 * hex_value h1 + hex_value h2)) (unquote rest)
          else String c (unquote s')
      | _ => String c (unquote s')
      end
  end.

(** [s.replace('+', ' ')] *)
Fixpoint plus_to_space (s : string) : string :=
  match s with
  | EmptyString => EmptyString
  | String c s' => String (if Ascii.eqb c "+" then " "%char else c) (plus_to_space s')
  end.

(** [parse_qsl] with its default arguments: fields without [=] and fields
    with a blank value are left out. *)
Definition parse_qsl (qs : string) : list (string * string) :=
  omap (λ name_value,
          match split_once "=" name_value with
          | Some (name, String v value) =>
              Some (unquote (plus_to_space name), unquote (plus_to_space (String v value)))
          | _ => None
          end)
       (Py.split "&" qs).

Definition parse_qs (qs : string) : Outcome (gmap string (list string)) :=
  Returned (foldl (λ parsed_result '(name, value),
                     match parsed_result !! name with
                     | Some values => <[name := values ++ [value]]> parsed_result
                     | None => <[name := [value]]> parsed_result
                     end)
                  ∅ (parse_qsl qs)).

End Urllib.

Definition urllib_model : UrlLib :=
  {| urlparse := Urllib.urlparse; parse_qs := Urllib.parse_qs |}.

(** ** Specification of a batch *)

(** The options with which the jobs of a batch are fetched. *)
Definition job_opts (ydl_opts : gmap string PyVal) (urls : list string) : gmap string PyVal :=
  match urls with
  | [_] => ydl_opts
  | _ => concurrent_ydl_opts ydl_opts
  end.

(** Every job of a batch with what [download_single] returns for it, in
    submission order. *)
Definition job_results `{MediaFetcher} (batch : nat) (ydl_opts : gmap string PyVal)
    (desc : string) (urls : list string) : list (string * option FailureRecord) :=
  imap (λ i url, (url, download_single batch i (job_opts ydl_opts urls) url desc)) urls.

(** The outcome that lists every job once, on the side its result puts it,
    in the order of the jobs. *)
Fixpoint tally (jobs : list (string * option FailureRecord)) : BatchOutcome :=
  match jobs with
  | [] => empty_outcome
  | (url, None) :: rest =>
      {| succeeded := url :: succeeded (tally rest); failed := failed (tally rest) |}
  | (_, Some r) :: rest =>
      {| succeeded := succeeded (tally rest); failed := r :: failed (tally rest) |}
  end.

Definition outcome_app (out1 out2 : BatchOutcome) : BatchOutcome :=
  {| succeeded := succeeded out1 ++ succeeded out2; failed := failed out1 ++ failed out2 |}.

(** The state a non-empty batch with outcome [out] leaves behind: the
    failures are appended to the registry and the batch is recorded. *)
Definition state_after (ydl_opts : gmap string PyVal) (urls : list string) (desc : string)
    (s : State) (out : BatchOutcome) : State :=
  {| MAX_WORKERS := MAX_WORKERS s;
     FAILED_DOWNLOADS := FAILED_DOWNLOADS s ++ failed out;
     issued := issued s ++ [mkBatchCall ydl_opts urls desc (FAILED_DOWNLOADS s)] |}.

(** [Partitioned urls succ fl]: going through [urls] in order, every job
    goes either to the end of [succ], as its url, or to the end of [fl], as
    a record with its url. *)
Inductive Partitioned : list string → list string → list FailureRecord → Prop :=
  | Partitioned_nil : Partitioned [] [] []
  | Partitioned_succeeded url urls succ fl :
      Partitioned urls succ fl → Partitioned (url :: urls) (url :: succ) fl
  | Partitioned_failed url desc err urls succ fl :
      Partitioned urls succ fl → Partitioned (url :: urls) succ ((url, desc, err) :: fl).

(** The pool of a batch of [n] jobs issued in state [s] can be created and
    completes every task. A batch of one job does not use the pool. *)
Definition pool_completes `{ThreadPool} (s : State) (n : nat) : Prop :=
  (1 < n)%nat →
  1 ≤ MAX_WORKERS s
  ∧ ∀ i, (i < n)%nat → i ∈ completion_order (MAX_WORKERS s) (length (issued s)) n.

(** The pool with [w] workers can be created and completes every task of
    every batch. *)
Definition pool_always_completes `{ThreadPool} (w : Z) : Prop :=
  1 ≤ w ∧ ∀ batch n i, (i < n)%nat → i ∈ completion_order w batch n.

(** ** Specification of the retry operations *)

(** [idx] is a 0-based position of a registry of [n] records. *)
Definition valid_index (n : nat) (idx : Z) : Prop := 0 ≤ idx < Z.of_nat n.

Global Instance valid_index_dec n idx : Decision (valid_index n idx).
Proof. unfold valid_index. apply _. Defined.



(** The urls of the records of [registry] labelled [d], in registry order. *)
Definition group_urls (d : string) (registry : list FailureRecord) : list string :=
  fr_url <$> filter (λ r, fr_desc r = d) registry.





(** ** Specification of the url intake *)



(** The directory of a playlist under [output_dir]. *)
Definition playlist_dir_of `{Host} (output_dir : string) (info : Info) : string :=
  Py.path_join output_dir (sanitize_filename (default "Unknown_Playlist" (info_title info))).

(** The verdict on a playlist that has an [entries] key holding no entry:
    the directory is created and the batch is empty, unless [makedirs]
    raises, which the handler of the loop catches. *)
Definition empty_playlist_verdict `{Host} (output_dir : string) (info : Info)
    : PlaylistVerdict :=
  match makedirs (playlist_dir_of output_dir info) with
  | Returned _ => Processed (playlist_dir_of output_dir info) [] empty_outcome
  | Raised e => ProcessingError e
  end.

(** ** Output directory *)

(** What [get_default_downloads_dir] and [get_output_dir] ask of the
    operating system: [os.path.expanduser("~")], [os.path.exists],
    [os.path.isdir], and [os.makedirs(path, exist_ok=True)], whose outcome
    may differ between the first and the second call of one run of
    [get_output_dir]. *)
Class FileSystem : Type := {
  home_dir : string;
  path_exists : string → bool;
  path_isdir : string → bool;
  os_makedirs : nat → string → Outcome unit
}.

Module Fs.

(** [get_default_downloads_dir] *)
Definition get_default_downloads_dir `{FileSystem} : string :=
  let home := home_dir in
  let downloads := Py.path_join home "Downloads" in
  if path_exists downloads && path_isdir downloads then downloads
  else "./downloads".

(** [get_output_dir], where [answer] is what [input] returns. The result is
    [Raised] when the second [os.makedirs], which no handler covers, raises. *)
Definition get_output_dir `{FileSystem} (answer : string) : Outcome string :=
  let default_dir := get_default_downloads_dir in
  let custom := Py.strip answer in
  let save_dir := if decide (custom = "") then default_dir else custom in
  match os_makedirs 0 save_dir with
  | Returned _ => Returned save_dir
  | Raised _ =>
      let save_dir := "./downloads" in
      match os_makedirs 1 save_dir with
      | Returned _ => Returned save_dir
      | Raised e => Raised e
      end
  end.

End Fs.

(** ** Specification of the url syntax check and of the options *)

(** [rest] starts with a character of [[-\w.]] or with an escape [%XX]. *)
Definition starts_host (rest : string) : Prop :=
  (∃ c t, rest = String c t ∧ (c = "-"%char ∨ is_word_char c = true ∨ c = "."%char))
  ∨ (∃ h1 h2 t, rest = String "%" (String h1 (String h2 t))
                ∧ is_hex_digit h1 = true ∧ is_hex_digit h2 = true).

(** The retry and resume policy of [base_ydl_opts]. *)
Definition keeps_base_policy (o : gmap string PyVal) : Prop :=
  o !! "retries" = Some (VInt 5)
  ∧ o !! "fragment_retries" = Some (VInt 10)
  ∧ o !! "continuedl" = Some (VBool true)
  ∧ o !! "nooverwrites" = Some (VBool true).

(** The three parameter literals of the menu entries. *)
Definition mode_params : list (gmap string PyVal) :=
  [video_with_audio_params; audio_params; video_only_params].



(** ** The menu *)

(** What the user types after the menu choice: the lines read by
    [get_urls], the line read at the prompt [Choose action], and the answer to
    the settings prompt ([None] for end of input). Every [Continue?] prompt
    is taken to be answered so that the program goes on. *)
Record Console : Type := mkConsole {
  typed_urls : list string;
  typed_action : string;
  typed_value : option string
}.

(** [select], where [line] is what [input] returns at the menu prompt. The
    result is [None] when the call does not return normally: choice 10 ends
    the process. Choice 9 shows the help, which does not touch the state. *)
Definition select `{MediaFetcher} `{ThreadPool} `{Host} `{PlaylistResolver} `{UrlLib}
    (line : string) (typed : Console) (s : State) : option State :=
  let choice := Py.strip line in
  if negb (Py.isdigit choice) then Some s
  else
    let choice := Py.int choice in
    if choice =? 1 then
      fst <$> download_video_with_audio (get_urls false (typed_urls typed)) s
    else if choice =? 2 then
      fst <$> download_audio_single (get_urls false (typed_urls typed)) s
    else if choice =? 3 then
      fst <$> download_video_only_single (get_urls false (typed_urls typed)) s
    else if choice =? 4 then
      fst <$> download_video_with_audio_playlist (get_urls true (typed_urls typed)) s
    else if choice =? 5 then
      fst <$> download_audio_playlist (get_urls true (typed_urls typed)) s
    else if choice =? 6 then
      fst <$> download_video_only_playlist (get_urls true (typed_urls typed)) s
    else if choice =? 7 then resume_failed_downloads (typed_action typed) s
    else if choice =? 8 then Some (download_thread_settings (typed_value typed) s)
    else if choice =? 9 then Some s
    else if choice =? 10 then None
    else Some s.

(** The loop [while True: ... select()] over what is typed, turn by turn. *)
Fixpoint session `{MediaFetcher} `{ThreadPool} `{Host} `{PlaylistResolver} `{UrlLib}
    (script : list (string * Console)) (s : State) : option State :=
  match script with
  | [] => Some s
  | (line, typed) :: rest =>
      s' ← select line typed s;
      session rest s'
  end.

(** The labels the six download entries give to their batches. *)
Definition menu_labels : list string :=
  [ "Video with Audio"; "Audio"; "Video without Audio";
    "Playlist Video with Audio"; "Playlist Audio"; "Playlist Video without Audio" ].

(** What holds of the state throughout a session. *)
Definition session_inv (s : State) : Prop :=
  1 ≤ MAX_WORKERS s
  ∧ Forall (λ r, fr_desc r ∈ menu_labels) (FAILED_DOWNLOADS s)
  ∧ Forall (λ c, bc_urls c ≠ [] ∧ bc_desc c ∈ menu_labels ∧ keeps_base_policy (bc_opts c))
      (issued s).



(** ** Concrete collaborators, for running the definitions *)

(** A fetcher that fails on every url containing [bad], with a two-line
    message. *)
Definition fetcher_model : MediaFetcher :=
  {| ydl_download := λ _ _ _ url,
       if Py.contains "bad" url
       then Raised ("ERROR: unable to download " +:+ url +:+ String Py.newline "Traceback")
       else Returned () |}.

(** A pool whose tasks complete in the reverse of the submission order. *)
Definition pool_model : ThreadPool :=
  {| completion_order := λ _ _ n, reverse (seq 0 n) |}.

Definition host_model : Host :=
  {| get_output_dir := λ _, "/home/user/Downloads";
     makedirs := λ _, Returned ();
     sanitize_filename := λ title, title |}.

(** A resolver that knows one empty playlist and one with two entries, the
    second of them without a url. *)
Definition resolver_model : PlaylistResolver :=
  {| extract_info := λ pl_url,
       if decide (pl_url = "https://www.youtube.com/playlist?list=EMPTY")
       then Returned (mkInfo (Some "Empty") (Some []))
       else if decide (pl_url = "https://www.youtube.com/playlist?list=TWO")
       then Returned (mkInfo (Some "Two") (Some [mkEntry (Some "https://youtu.be/a"); mkEntry None]))
       else if decide (pl_url = "https://www.youtube.com/watch?v=abc")
       then Returned (mkInfo (Some "A video") None)
       else Raised "ERROR: unsupported URL" |}.

Definition registry3 : list FailureRecord :=
  [ ("https://a.example/1", "Audio", "timeout");
    ("https://a.example/bad", "Video without Audio", "HTTP Error 403");
    ("https://a.example/3", "Audio", "timeout") ].

Definition state3 : State :=
  {| MAX_WORKERS := 5; FAILED_DOWNLOADS := registry3; issued := [] |}.

(** * Properties *)

(** ** Running the definitions *)

Example strip_example : Py.strip "  12 " = "12".
Proof. reflexivity. Qed.

Example settings_example :
  MAX_WORKERS (download_thread_settings (Some " 12 ") initial_state) = 12.
Proof. reflexivity. Qed.

Example urlparse_example :
  @urlparse urllib_model "https://www.YouTube.com/playlist;p?list=PL%31&x=#top"
  = Returned (mkParseResult "https" "www.YouTube.com" "/playlist" "p" "list=PL%31&x=" "top").
Proof. vm_compute. reflexivity. Qed.

Example parse_qs_example :
  @parse_qs urllib_model "l%69st=PL%31&v=&a+b=c&list=2"
  = Returned {[ "list" := ["PL1"; "2"]; "a b" := ["c"] ]}.
Proof. vm_compute. reflexivity. Qed.

(** ** Thread settings *)

Lemma download_thread_settings_registry answer s :
  FAILED_DOWNLOADS (download_thread_settings answer s) = FAILED_DOWNLOADS s
  ∧ issued (download_thread_settings answer s) = issued s.
Proof.
  destruct answer as [line|]; simpl; [|done].
  destruct (Py.isdigit (Py.strip line)); simpl; [|done].
  by destruct (1 <=? Py.int (Py.strip line)).
Qed.

Lemma download_thread_settings_at_least_one answer s :
  1 ≤ MAX_WORKERS s → 1 ≤ MAX_WORKERS (download_thread_settings answer s).
Proof.
  intros Hs. destruct answer as [line|]; simpl; [|done].
  destruct (Py.isdigit (Py.strip line)); simpl; [|done].
  destruct (Z.leb_spec 1 (Py.int (Py.strip line))); simpl; lia.
Qed.




Lemma digit_not_space c : Py.is_digit c = true → Py.is_space c = false.
Proof.
  unfold Py.is_digit, Py.is_space. generalize (nat_of_ascii c). intros n.
  rewrite andb_true_iff, !Nat.leb_le, orb_false_iff, !andb_false_iff, !Nat.leb_gt. lia.
Qed.

Lemma rstrip_digits s : Py.all_digits s = true → Py.rstrip s = s.
Proof.
  induction s as [|c s IH]; [done|]. simpl.
  intros [Hc Hs]%andb_true_iff. rewrite (IH Hs).
  destruct s; [|done]. by rewrite digit_not_space.
Qed.

Lemma strip_digits s : Py.all_digits s = true → Py.strip s = s.
Proof.
  intros Hs. unfold Py.strip.
  assert (Py.lstrip s = s) as ->; [|by apply rstrip_digits].
  destruct s as [|c s]; [done|]. simpl in *.
  apply andb_true_iff in Hs as [Hc _]. by rewrite digit_not_space.
Qed.




(** ** Retry parameters *)

Lemma contains_unfold needle hay :
  Py.contains needle hay =
    String.prefix needle hay ||
    match hay with
    | EmptyString => false
    | String _ hay' => Py.contains needle hay'
    end.
Proof. by destruct hay. Qed.

Lemma prefix_app_contains p1 p2 s :
  String.prefix (p1 +:+ p2) s = true → Py.contains p2 s = true.
Proof.
  revert s. induction p1 as [|c p1 IH]; intros s.
  - change ("" +:+ p2) with p2. intros Hp. rewrite contains_unfold, Hp. done.
  - destruct s as [|c' s]; [done|]. intros Hp. simpl in Hp.
    destruct (ascii_dec c c'); [|done].
    apply IH in Hp. rewrite contains_unfold, Hp. by rewrite orb_true_r.
Qed.

Lemma contains_app_r p1 p2 s :
  Py.contains (p1 +:+ p2) s = true → Py.contains p2 s = true.
Proof.
  induction s as [|c s IH]; rewrite contains_unfold.
  - rewrite orb_false_r. apply prefix_app_contains.
  - intros [Hp|Hc]%orb_true_iff.
    + by apply prefix_app_contains in Hp.
    + rewrite (contains_unfold p2), (IH Hc). by rewrite orb_true_r.
Qed.

(** A label that contains [Video without Audio] contains [Audio]: the
    second test of [_retry_downloads] wins over the third. *)
Lemma video_without_audio_contains_audio mode :
  Py.contains "Video without Audio" mode = true → Py.contains "Audio" mode = true.
Proof. apply (contains_app_r "Video without " "Audio"). Qed.

Lemma retry_format_cases output_dir mode :
  retry_ydl_opts output_dir mode !! "format" =
    if Py.contains "Video with Audio" mode then Some (VStr "bestvideo+bestaudio")
    else if Py.contains "Audio" mode then Some (VStr "bestaudio/best")
    else None.
Proof.
  unfold retry_ydl_opts.
  destruct (Py.contains "Video with Audio" mode); [by destruct (Py.contains "Playlist" mode)|].
  destruct (Py.contains "Audio" mode) eqn:Ha; [by destruct (Py.contains "Playlist" mode)|].
  destruct (Py.contains "Video without Audio" mode) eqn:Hv.
  - apply video_without_audio_contains_audio in Hv. congruence.
  - by destruct (Py.contains "Playlist" mode).
Qed.

(** C1 (the code departs from the claim). A record whose label is
    [Video without Audio], or [Playlist Video without Audio], is retried with
    the audio-extraction parameters: the test for [Audio] comes before the
    test for [Video without Audio] in [_retry_downloads], so the branch that
    selects [bestvideo] is never taken, whereas the menu entry that produced
    the record asked for [bestvideo]. *)
Theorem retry_video_only_uses_audio_params (output_dir : string) :
  retry_ydl_opts output_dir "Video without Audio" !! "format" = Some (VStr "bestaudio/best")
  ∧ retry_ydl_opts output_dir "Video without Audio" !! "postprocessors" = Some audio_postprocessors
  ∧ retry_ydl_opts output_dir "Playlist Video without Audio" !! "format"
    = Some (VStr "bestaudio/best")
  ∧ single_ydl_opts video_only_params output_dir !! "format" = Some (VStr "bestvideo")
  ∧ ∀ mode, retry_ydl_opts output_dir mode !! "format" ≠ Some (VStr "bestvideo").
Proof.
  repeat split; try done.
  intros mode. rewrite retry_format_cases.
  by repeat case_match.
Qed.

(** The batch issued by retrying the one record of a registry that holds a
    [Video without Audio] failure asks for [bestaudio/best]. *)
Lemma retry_one_video_only_issues_audio :
  (issued <$> @resume_failed_downloads fetcher_model pool_model host_model "1"
     {| MAX_WORKERS := 5;
        FAILED_DOWNLOADS := [("https://a.example/bad", "Video without Audio", "HTTP Error 403")];
        issued := [] |})
  = Some [ mkBatchCall (retry_ydl_opts "/home/user/Downloads" "Video without Audio")
             ["https://a.example/bad"] "Video without Audio" [] ]
  ∧ retry_ydl_opts "/home/user/Downloads" "Video without Audio" !! "format"
    = Some (VStr "bestaudio/best").
Proof. split; vm_compute; reflexivity. Qed.

(** ** The worker pool *)

(** C7. With an empty list [run_download] returns at once: the outcome is
    empty and the state (the registry, the limit and the history of batches)
    is the one before the call. *)
Theorem run_download_empty `{MediaFetcher} `{ThreadPool}
    (ydl_opts : gmap string PyVal) (desc : string) (s : State) :
  ∃ s' out,
    run_download ydl_opts [] desc s = Some (s', out)
    ∧ s' = s
    ∧ FAILED_DOWNLOADS s' = FAILED_DOWNLOADS s
    ∧ MAX_WORKERS s' = MAX_WORKERS s
    ∧ issued s' = issued s
    ∧ succeeded out = [] ∧ failed out = [].
Proof. by exists s, empty_outcome. Qed.

Section pool.
Context {R : Type}.
Implicit Types (tasks : list R) (futures : list (option R)) (order : list nat).

Let step tasks futures (i : nat) : list (option R) :=
  match tasks !! i with
  | Some r => <[i := Some r]> futures
  | None => futures
  end.

Lemma pool_step_length tasks futures i :
  length (step tasks futures i) = length futures.
Proof. unfold step. destruct (tasks !! i); [apply length_insert|done]. Qed.

Lemma pool_fold_lookup tasks order futures i :
  length futures = length tasks →
  foldl (step tasks) futures order !! i =
    if decide (i ∈ order) then Some <$> tasks !! i else futures !! i.
Proof.
  revert futures. induction order as [|j order IH]; intros futures Hlen; cbn [foldl].
  - by rewrite decide_False by apply not_elem_of_nil.
  - rewrite IH by (by rewrite pool_step_length).
    destruct (decide (i ∈ order)) as [Hin|Hin].
    + by rewrite decide_True by (by right).
    + unfold step. destruct (decide (i = j)) as [->|Hne].
      * rewrite decide_True by left.
        destruct (tasks !! j) as [r|] eqn:Hj; simpl.
        -- apply list_lookup_insert_eq. rewrite Hlen. by eapply lookup_lt_Some.
        -- apply lookup_ge_None. rewrite Hlen. by apply lookup_ge_None.
      * rewrite decide_False by (by intros [?|?]%elem_of_cons).
        destruct (tasks !! j); [by apply list_lookup_insert_ne|done].
Qed.

(** When every task completes, every future holds the result of the task
    submitted at its position, whatever the order of completion. *)
Lemma pool_futures_complete tasks order :
  (∀ i, (i < length tasks)%nat → i ∈ order) →
  pool_futures order tasks = Some <$> tasks.
Proof.
  intros Hall. apply list_eq. intros i. unfold pool_futures.
  rewrite (pool_fold_lookup tasks) by apply length_replicate.
  rewrite list_lookup_fmap.
  destruct (decide (i ∈ order)) as [|Hnot]; [done|].
  destruct (tasks !! i) eqn:Hi.
  - destruct Hnot. apply Hall. by eapply lookup_lt_Some.
  - simpl. apply lookup_ge_None. rewrite length_replicate. by apply lookup_ge_None.
Qed.

Lemma executor_wait_complete `{ThreadPool} max_workers batch tasks :
  1 ≤ max_workers →
  (∀ i, (i < length tasks)%nat → i ∈ completion_order max_workers batch (length tasks)) →
  executor_wait max_workers batch tasks = Some tasks.
Proof.
  intros Hw Hall. unfold executor_wait.
  destruct (Z.leb_spec max_workers 0); [lia|].
  rewrite pool_futures_complete by done.
  apply mapM_Some. clear Hall. induction tasks; simpl; by constructor.
Qed.

(** A task that never completes keeps [wait] from returning. *)
Lemma executor_wait_pending `{ThreadPool} max_workers batch tasks i :
  (i < length tasks)%nat →
  i ∉ completion_order max_workers batch (length tasks) →
  executor_wait max_workers batch tasks = None.
Proof.
  intros Hi Hnot. unfold executor_wait. case_match; [done|].
  apply eq_None_not_Some. intros [l Hl]. apply mapM_Some in Hl.
  apply Forall2_lookup_l with (i := i) (x := None) in Hl as (y & _ & [=]).
  unfold pool_futures. rewrite (pool_fold_lookup tasks) by apply length_replicate.
  rewrite decide_False by done. by apply lookup_replicate_2.
Qed.
End pool.

Lemma outcome_app_empty out : outcome_app empty_outcome out = out.
Proof. by destruct out. Qed.

(** The collection loop reads the futures in submission order. *)
Lemma collect_returned urls desc (f : nat → string → option FailureRecord) rest :
  ∀ k out, drop k urls = rest →
    collect urls desc k (imap (λ i url, Returned (f (k + i)%nat url)) rest) out
    = Some (outcome_app out (tally (imap (λ i url, (url, f (k + i)%nat url)) rest))).
Proof.
  induction rest as [|url rest IH]; intros k out Hdrop.
  - simpl. destruct out. unfold outcome_app. simpl. by rewrite !app_nil_r.
  - assert (urls !! k = Some url) as Hk.
    { rewrite <- (Nat.add_0_r k), <- lookup_drop, Hdrop. done. }
    assert (drop (S k) urls = rest) as Hdrop'.
    { rewrite (drop_S _ _ _ Hk) in Hdrop. by injection Hdrop. }
    rewrite !imap_cons. cbn [collect]. rewrite Hk. cbn [mbind option_bind].
    rewrite (imap_ext _ (λ i url, Returned (f (S k + i)%nat url)))
      by (intros; simpl; do 2 f_equal; lia).
    rewrite (imap_ext (_ ∘ S) (λ i url, (url, f (S k + i)%nat url)))
      by (intros; simpl; do 2 f_equal; lia).
    rewrite IH by done. f_equal. rewrite Nat.add_0_r.
    cbn [tally]. destruct (f k url) as [r|]; unfold outcome_app; simpl;
      by rewrite <- !app_assoc.
Qed.

Section batch.
Context `{MediaFetcher} `{ThreadPool}.
Implicit Types (ydl_opts : gmap string PyVal) (urls : list string) (s : State).

(** A non-empty batch returns, with every job tallied from its own result
    and the failures appended to the registry. *)
Lemma run_download_outcome ydl_opts urls desc s :
  urls ≠ [] → pool_completes s (length urls) →
  let out := tally (job_results (length (issued s)) ydl_opts desc urls) in
  run_download ydl_opts urls desc s = Some (state_after ydl_opts urls desc s out, out).
Proof.
  intros Hne Hpool out.
  assert (∀ o, match failed o with
               | [] => FAILED_DOWNLOADS s
               | _ => FAILED_DOWNLOADS s ++ failed o
               end = FAILED_DOWNLOADS s ++ failed o) as Hreg.
  { intros o. destruct (failed o); [by rewrite app_nil_r|done]. }
  destruct urls as [|u [|u2 urls]]; [done| |].
  - subst out. unfold run_download, job_results, state_after. simpl.
    destruct (download_single _ 0 ydl_opts u desc); simpl; by rewrite ?app_nil_r.
  - destruct Hpool as [Hw Hall]; [simpl; lia|].
    unfold run_download.
    rewrite executor_wait_complete; [|done|by rewrite length_imap].
    cbn [mbind option_bind].
    rewrite (collect_returned (u :: u2 :: urls) desc
               (λ i url, download_single (length (issued s)) i
                           (concurrent_ydl_opts ydl_opts) url desc) _ 0 empty_outcome)
      by done.
    cbn [mbind option_bind]. rewrite outcome_app_empty, Hreg. done.
Qed.
End batch.

(** *** What a partition says *)

Lemma Partitioned_length urls succ fl :
  Partitioned urls succ fl → (length succ + length fl = length urls)%nat.
Proof. induction 1; simpl; lia. Qed.

Lemma Partitioned_Permutation urls succ fl :
  Partitioned urls succ fl → succ ++ (fr_url <$> fl) ≡ₚ urls.
Proof.
  induction 1 as [|url urls succ fl _ IH|url desc err urls succ fl _ IH]; simpl.
  - done.
  - by rewrite IH.
  - rewrite <- IH. symmetry. apply Permutation_middle.
Qed.

Lemma Partitioned_sublist urls succ fl :
  Partitioned urls succ fl → sublist succ urls ∧ sublist (fr_url <$> fl) urls.
Proof.
  induction 1 as [|url urls succ fl _ [IH1 IH2]|url desc err urls succ fl _ [IH1 IH2]]; simpl.
  - done.
  - split; by constructor.
  - split; by constructor.
Qed.

Lemma tally_partitioned (f : nat → string → option FailureRecord) urls :
  (∀ i url r, f i url = Some r → fr_url r = url) →
  let out := tally (imap (λ i url, (url, f i url)) urls) in
  Partitioned urls (succeeded out) (failed out).
Proof.
  revert f. induction urls as [|url urls IH]; intros f Hf; simpl.
  - constructor.
  - specialize (IH (f ∘ S)). simpl in IH.
    destruct (f 0%nat url) as [[[u d] e]|] eqn:H0; simpl.
    + apply Hf in H0. unfold fr_url in H0. simpl in H0. subst u. constructor. apply IH. intros; by eapply Hf.
    + constructor. apply IH. intros; by eapply Hf.
Qed.

Lemma tally_failed_elem jobs url r :
  (url, Some r) ∈ jobs → r ∈ failed (tally jobs).
Proof.
  induction jobs as [|[u [r'|]] jobs IH]; simpl.
  - by intros ?%elem_of_nil.
  - intros [[= -> ->]|Hin]%elem_of_cons; [left|right; auto].
  - intros [[=]|Hin]%elem_of_cons. auto.
Qed.

Lemma tally_succeeded_elem jobs url :
  (url, None) ∈ jobs → url ∈ succeeded (tally jobs).
Proof.
  induction jobs as [|[u [r'|]] jobs IH]; simpl.
  - by intros ?%elem_of_nil.
  - intros [[=]|Hin]%elem_of_cons. auto.
  - intros [[= ->]|Hin]%elem_of_cons; [left|right; auto].
Qed.

Lemma download_single_url `{MediaFetcher} batch i ydl_opts url desc r :
  download_single batch i ydl_opts url desc = Some r → fr_url r = url.
Proof. unfold download_single. case_match; [done|]. by intros [= <-]. Qed.

(** *** The first line of a message *)

Lemma split_cons_inv sep s : ∃ w ws, Py.split sep s = w :: ws.
Proof.
  induction s as [|c s (w & ws & IH)]; simpl; [by eauto|].
  destruct (Ascii.eqb c sep); [by eauto|]. rewrite IH. by eauto.
Qed.

Lemma first_line_cons c s :
  first_line (String c s) =
    if Ascii.eqb c Py.newline then EmptyString else String c (first_line s).
Proof.
  unfold first_line. simpl. destruct (Ascii.eqb c Py.newline); [done|].
  by destruct (split_cons_inv Py.newline s) as (w & ws & ->).
Qed.

(** [first_line msg] is the part of [msg] before its first line feed. *)
Lemma first_line_spec msg :
  Py.contains (String Py.newline "") (first_line msg) = false
  ∧ ∃ rest, msg = first_line msg +:+ rest
            ∧ (rest = "" ∨ ∃ rest', rest = String Py.newline rest').
Proof.
  induction msg as [|c msg [IH1 (rest & IH2 & IH3)]].
  - split; [done|]. exists "". by split; [|left].
  - rewrite first_line_cons. destruct (Ascii.eqb_spec c Py.newline) as [->|Hne].
    + split; [done|]. exists (String Py.newline msg). split; [done|]. right. by eexists.
    + split.
      * rewrite contains_unfold, IH1, orb_false_r. cbn [String.prefix].
        destruct (ascii_dec Py.newline c); [congruence|done].
      * exists rest. split; [|done].
        change (String c (first_line msg) +:+ rest) with (String c (first_line msg +:+ rest)).
        by rewrite <- IH2.
Qed.

Lemma job_results_partitioned `{MediaFetcher} batch ydl_opts desc urls :
  let out := tally (job_results batch ydl_opts desc urls) in
  Partitioned urls (succeeded out) (failed out).
Proof.
  unfold job_results.
  apply (tally_partitioned
           (λ i url, download_single batch i (job_opts ydl_opts urls) url desc)).
  intros i url r. apply download_single_url.
Qed.

(** C2. A non-empty batch whose pool completes its tasks returns an outcome
    in which every job appears once, as a url of [succeeded] or as a record
    of [failed] with that url, both lists in submission order; the two
    lengths add up to the number of jobs; and the outcome is the same for
    every pool that completes its tasks, whatever the order of completion. *)
Theorem run_download_partitions `{MediaFetcher} `{ThreadPool}
    (ydl_opts : gmap string PyVal) (urls : list string) (desc : string) (s : State) :
  urls ≠ [] → pool_completes s (length urls) →
  ∃ s' out,
    run_download ydl_opts urls desc s = Some (s', out)
    ∧ Partitioned urls (succeeded out) (failed out)
    ∧ (length (succeeded out) + length (failed out) = length urls)%nat
    ∧ succeeded out ++ (fr_url <$> failed out) ≡ₚ urls
    ∧ sublist (succeeded out) urls
    ∧ sublist (fr_url <$> failed out) urls
    ∧ ∀ other : ThreadPool,
        @pool_completes other s (length urls) →
        @run_download _ other ydl_opts urls desc s = Some (s', out).
Proof.
  intros Hne Hpool. eexists _, _. split; [by apply run_download_outcome|].
  pose proof (job_results_partitioned (length (issued s)) ydl_opts desc urls) as Hpart.
  simpl in Hpart. split; [done|].
  split; [by apply Partitioned_length|].
  split; [by apply Partitioned_Permutation|].
  split; [by apply Partitioned_sublist in Hpart as []|].
  split; [by apply Partitioned_sublist in Hpart as []|].
  intros other Hother. by apply (@run_download_outcome _ other).
Qed.

Lemma run_download_partitions_witness :
  ∃ s',
    @run_download fetcher_model pool_model ∅
      ["https://a.example/1"; "https://a.example/bad"; "https://a.example/3"; "https://bad.example"]
      "Audio" initial_state
    = Some (s', {| succeeded := ["https://a.example/1"; "https://a.example/3"];
                   failed := [ ("https://a.example/bad", "Audio",
                                "ERROR: unable to download https://a.example/bad");
                               ("https://bad.example", "Audio",
                                "ERROR: unable to download https://bad.example") ] |}).
Proof.
  destruct (@run_download_partitions fetcher_model pool_model ∅
              ["https://a.example/1"; "https://a.example/bad"; "https://a.example/3";
               "https://bad.example"]
              "Audio" initial_state) as (s' & out & Hrun & _).
  - discriminate.
  - intros _. split; [simpl; lia|].
    intros i Hi. simpl in Hi. apply list_elem_of_In. vm_compute.
    destruct i as [|[|[|[|i]]]]; [tauto..|lia].
  - exists s'. rewrite Hrun. vm_compute in Hrun. injection Hrun as _ <-. reflexivity.
Defined.

(** C5. When the fetch of a job raises, [run_download] still returns: the
    job is in [failed] with its url, the label of the batch and the first
    line of the message (the text before the first line feed), that record
    is appended to the registry, and every other job of the batch is tallied
    as well. *)
Theorem fetch_error_becomes_record `{MediaFetcher} `{ThreadPool}
    (ydl_opts : gmap string PyVal) (urls : list string) (desc : string) (s : State)
    (i : nat) (url msg : string) :
  urls !! i = Some url →
  ydl_download (length (issued s)) i (job_opts ydl_opts urls) url = Raised msg →
  pool_completes s (length urls) →
  ∃ s' out err_msg,
    run_download ydl_opts urls desc s = Some (s', out)
    ∧ (url, desc, err_msg) ∈ failed out
    ∧ FAILED_DOWNLOADS s' = FAILED_DOWNLOADS s ++ failed out
    ∧ Partitioned urls (succeeded out) (failed out)
    ∧ err_msg = first_line msg
    ∧ Py.contains (String Py.newline "") err_msg = false
    ∧ ∃ rest, msg = err_msg +:+ rest ∧ (rest = "" ∨ ∃ rest', rest = String Py.newline rest').
Proof.
  intros Hi Hfetch Hpool.
  assert (urls ≠ []) as Hne by (intros ->; done).
  eexists _, _, _. split; [by apply run_download_outcome|].
  split; [|split; [done|split; [apply job_results_partitioned|split; [done|]]]].
  - apply (tally_failed_elem _ url). unfold job_results.
    apply elem_of_lookup_imap. exists i, url. split; [|done].
    unfold download_single. by rewrite Hfetch.
  - apply first_line_spec.
Qed.

Lemma fetch_error_becomes_record_witness :
  ∃ s' out,
    @run_download fetcher_model pool_model ∅
      ["https://a.example/1"; "https://a.example/bad"; "https://a.example/3"]
      "Video with Audio" initial_state = Some (s', out)
    ∧ ("https://a.example/bad", "Video with Audio",
       "ERROR: unable to download https://a.example/bad") ∈ failed out.
Proof.
  destruct (@fetch_error_becomes_record fetcher_model pool_model ∅
              ["https://a.example/1"; "https://a.example/bad"; "https://a.example/3"]
              "Video with Audio" initial_state 1 "https://a.example/bad"
              ("ERROR: unable to download https://a.example/bad" +:+ String Py.newline "Traceback"))
    as (s' & out & err_msg & Hrun & Hin & _ & _ & -> & _).
  - reflexivity.
  - reflexivity.
  - intros _. split; [simpl; lia|].
    intros i Hi. simpl in Hi. apply list_elem_of_In. vm_compute.
    destruct i as [|[|[|i]]]; [tauto..|lia].
  - exists s', out. split; [done|]. exact Hin.
Defined.

(** ** Retry of selected records *)

Section selection.
Context {A : Type}.
Implicit Types (l : list A) (sel : list Z) (k : nat).






End selection.


Lemma pop_step_valid registry to_retry idx r :
  valid_index (length registry) idx → registry !! Z.to_nat idx = Some r →
  pop_step (registry, to_retry) idx = (delete (Z.to_nat idx) registry, to_retry ++ [r]).
Proof.
  intros [H0 Hn] Hr. unfold pop_step.
  destruct (Z.leb_spec 0 idx); [|lia].
  destruct (Z.ltb_spec idx (Z.of_nat (length registry))); [|lia].
  simpl. by rewrite Hr.
Qed.

Lemma pop_step_invalid acc idx :
  ¬ valid_index (length acc.1) idx → pop_step acc idx = acc.
Proof.
  destruct acc as [registry to_retry]. unfold valid_index, pop_step. simpl. intros Hn.
  destruct (Z.leb_spec 0 idx); [|done].
  destruct (Z.ltb_spec idx (Z.of_nat (length registry))); [lia|done].
Qed.



Global Instance flip_le_transitive : Transitive (flip Z.le).
Proof. intros x y z. unfold flip. lia. Qed.

Global Instance flip_le_total : Total (flip Z.le).
Proof. intros x y. unfold flip. lia. Qed.



Section retry.
Context `{MediaFetcher} `{ThreadPool} `{Host}.
Implicit Types (s : State) (records : list FailureRecord).

Lemma download_single_cases batch i ydl_opts url desc :
  download_single batch i ydl_opts url desc = None
  ∨ ∃ err, download_single batch i ydl_opts url desc = Some (url, desc, err).
Proof. unfold download_single. case_match; eauto. Qed.



End retry.






(** ** Retry of all records *)

Lemma dict_append_keys d url acc :
  (dict_append d url acc).*1 = if decide (d ∈ acc.*1) then acc.*1 else acc.*1 ++ [d].
Proof.
  induction acc as [|[k urls] acc IH].
  - done.
  - cbn [dict_append].
    destruct (decide (k = d)) as [->|Hne]; rewrite !fmap_cons; cbn [fst].
    + by rewrite decide_True by left.
    + rewrite IH. destruct (decide (d ∈ acc.*1)) as [Hin|Hin].
      * by rewrite decide_True by (by right).
      * by rewrite decide_False by (intros [?|?]%elem_of_cons; congruence).
Qed.

Lemma dict_append_elem d url acc k urls :
  NoDup acc.*1 → (k, urls) ∈ dict_append d url acc →
  (k ≠ d ∧ (k, urls) ∈ acc)
  ∨ (k = d ∧ ((∃ urls0, (d, urls0) ∈ acc ∧ urls = urls0 ++ [url])
              ∨ ((d ∉ acc.*1) ∧ urls = [url]))).
Proof.
  induction acc as [|[k0 urls0] acc IH]; simpl; intros Hnd Hin.
  - apply list_elem_of_singleton in Hin as [= -> ->]. right. split; [done|]. right.
    split; [apply not_elem_of_nil|done].
  - apply NoDup_cons in Hnd as [Hk0 Hnd].
    destruct (decide (k0 = d)) as [->|Hne].
    + apply elem_of_cons in Hin as [[= -> ->]|Hin].
      * right. split; [done|]. left. exists urls0. split; [left|done].
      * left. split; [|by right]. intros ->. destruct Hk0.
        apply list_elem_of_fmap. by exists (d, urls).
    + apply elem_of_cons in Hin as [[= -> ->]|Hin].
      * left. split; [done|left].
      * destruct (IH Hnd Hin) as [[? ?]|[-> [(u0 & ? & ->)|[? ->]]]].
        -- left. split; [done|by right].
        -- right. split; [done|]. left. exists u0. split; [by right|done].
        -- right. split; [done|]. right. split; [|done].
           intros [?|?]%elem_of_cons; [congruence|done].
Qed.

Lemma group_by_desc_snoc registry r :
  group_by_desc (registry ++ [r])
  = dict_append (fr_desc r) (fr_url r) (group_by_desc registry).
Proof. unfold group_by_desc. rewrite foldl_snoc. by destruct r as [[url d] err]. Qed.

Lemma group_urls_snoc d registry r :
  group_urls d (registry ++ [r])
  = group_urls d registry ++ (if decide (fr_desc r = d) then [fr_url r] else []).
Proof.
  unfold group_urls. rewrite filter_app, fmap_app. f_equal.
  rewrite filter_cons. by case_decide.
Qed.

Lemma group_urls_nil d registry :
  d ∉ fr_desc <$> registry → group_urls d registry = [].
Proof.
  intros Hd. unfold group_urls.
  induction registry as [|r registry IH]; [done|].
  rewrite fmap_cons, not_elem_of_cons in Hd. destruct Hd as [Hne Hd].
  rewrite filter_cons_False by congruence. auto.
Qed.

(** The groups of the retry-all branch: one group per label that occurs in
    the registry, holding the urls of the records with that label in
    registry order. *)
Lemma group_by_desc_spec registry :
  NoDup (group_by_desc registry).*1
  ∧ (∀ d, d ∈ (group_by_desc registry).*1 ↔ d ∈ fr_desc <$> registry)
  ∧ ∀ d urls, (d, urls) ∈ group_by_desc registry →
      urls = group_urls d registry ∧ urls ≠ [].
Proof.
  induction registry as [|r registry (Hnd & Hkeys & Hurls)] using rev_ind.
  - split; [constructor|]. split; [done|]. by intros d urls ?%elem_of_nil.
  - rewrite group_by_desc_snoc. split; [|split].
    + rewrite dict_append_keys. case_decide; [done|].
      apply NoDup_app. split; [done|]. split; [|apply NoDup_singleton].
      intros x Hx ->%list_elem_of_singleton. done.
    + intros d. rewrite dict_append_keys, fmap_app, elem_of_app, <- Hkeys.
      simpl. rewrite list_elem_of_singleton.
      case_decide; [|rewrite elem_of_app, list_elem_of_singleton; tauto].
      split; [tauto|]. by intros [?| ->].
    + intros d urls Hin. rewrite group_urls_snoc.
      apply dict_append_elem in Hin as [[Hne Hin]|[-> [(u0 & Hin & ->)|[Hnot ->]]]];
        [| | |done].
      * apply Hurls in Hin as [-> ?]. rewrite decide_False by done.
        by rewrite app_nil_r.
      * apply Hurls in Hin as [-> ?]. rewrite decide_True by done.
        split; [done|]. by intros [? ?]%app_eq_nil.
      * rewrite decide_True by done. rewrite group_urls_nil by (by rewrite <- Hkeys).
        done.
Qed.

Lemma tally_failed_inv jobs r :
  r ∈ failed (tally jobs) → ∃ url, (url, Some r) ∈ jobs.
Proof.
  induction jobs as [|[u [r'|]] jobs IH]; simpl.
  - by intros ?%elem_of_nil.
  - intros [->|Hin]%elem_of_cons.
    + exists u. left.
    + destruct (IH Hin) as [url ?]. exists url. by right.
  - intros Hin. destruct (IH Hin) as [url ?]. exists url. by right.
Qed.

Section retry_all.
Context `{MediaFetcher} `{ThreadPool} `{Host}.
Implicit Types (s : State) (groups : list (string * list string)).

(** A record a batch adds to the registry carries the label of the batch
    and one of its urls. *)
Lemma job_results_failed batch ydl_opts desc urls r :
  r ∈ failed (tally (job_results batch ydl_opts desc urls)) →
  fr_desc r = desc ∧ fr_url r ∈ urls.
Proof.
  intros (url & Hin)%tally_failed_inv. unfold job_results in Hin.
  apply elem_of_lookup_imap in Hin as (i & u & [= -> Hr] & Hu).
  symmetry in Hr.
  destruct (download_single_cases batch i (job_opts ydl_opts urls) u desc)
    as [Hn|[err He]]; [congruence|].
  rewrite He in Hr. injection Hr as <-. split; [done|].
  unfold fr_url. simpl. by eapply list_elem_of_lookup_2.
Qed.

End retry_all.



(** ** Playlists without entries *)

Section playlist.
Context `{MediaFetcher} `{ThreadPool} `{Host} `{PlaylistResolver}.

Lemma process_playlist_empty params desc output_dir pl_url info s :
  extract_info pl_url = Returned info → info_entries info = Some [] →
  process_playlist params desc output_dir pl_url s
  = Some (s, empty_playlist_verdict output_dir info).
Proof.
  intros Hinfo Hentries.
  unfold process_playlist, empty_playlist_verdict, playlist_dir_of.
  rewrite Hinfo, Hentries. by case_match.
Qed.

Lemma empty_playlist_verdict_not_skip output_dir info :
  empty_playlist_verdict output_dir info ≠ NotAPlaylist.
Proof. unfold empty_playlist_verdict. by case_match. Qed.

Lemma process_playlists_empty params desc output_dir urls infos s :
  Forall2 (λ pl_url info, extract_info pl_url = Returned info ∧ info_entries info = Some [])
    urls infos →
  process_playlists params desc output_dir urls s
  = Some (s, empty_playlist_verdict output_dir <$> infos).
Proof.
  induction 1 as [|pl_url info urls infos [Hinfo Hentries] _ IH]; [done|].
  cbn [process_playlists]. rewrite (process_playlist_empty _ _ _ _ info) by done.
  cbn [mbind option_bind]. by rewrite IH.
Qed.
End playlist.

(** C6. A playlist url that resolves to an [entries] collection without
    members does not take the skip of the urls that are not playlists: the
    loop body returns, with no job, an empty batch and the state it started
    from (no record is added and no batch is issued); an exception of
    [makedirs] is caught by the loop. The same holds for a whole run of
    [download_video_with_audio_playlist] over such urls. *)
Theorem empty_playlist_not_skipped `{MediaFetcher} `{ThreadPool} `{Host} `{PlaylistResolver}
    (params : gmap string PyVal) (desc output_dir pl_url : string) (info : Info) (s : State) :
  extract_info pl_url = Returned info → info_entries info = Some [] →
  ∃ v,
    process_playlist params desc output_dir pl_url s = Some (s, v)
    ∧ v ≠ NotAPlaylist
    ∧ (∀ u, makedirs (playlist_dir_of output_dir info) = Returned u →
         v = Processed (playlist_dir_of output_dir info) [] empty_outcome)
    ∧ (∀ e, makedirs (playlist_dir_of output_dir info) = Raised e → v = ProcessingError e)
    ∧ run_download (playlist_ydl_opts params output_dir (playlist_dir_of output_dir info))
        [] desc s = Some (s, empty_outcome)
    ∧ ∀ urls infos,
        Forall2 (λ u i, extract_info u = Returned i ∧ info_entries i = Some []) urls infos →
        download_video_with_audio_playlist urls s
        = Some (s, empty_playlist_verdict (get_output_dir (length (issued s))) <$> infos).
Proof.
  intros Hinfo Hentries. exists (empty_playlist_verdict output_dir info).
  split; [by apply process_playlist_empty|].
  split; [apply empty_playlist_verdict_not_skip|].
  split; [|split; [|split; [done|]]].
  - intros u Hm. unfold empty_playlist_verdict. by rewrite Hm.
  - intros e Hm. unfold empty_playlist_verdict. by rewrite Hm.
  - intros urls infos Hall. unfold download_video_with_audio_playlist.
    destruct urls as [|u urls].
    + by apply Forall2_nil_inv_l in Hall as ->.
    + by apply process_playlists_empty.
Qed.

Lemma empty_playlist_not_skipped_witness :
  @download_video_with_audio_playlist fetcher_model pool_model host_model resolver_model
    ["https://www.youtube.com/playlist?list=EMPTY"] state3
  = Some (state3, [Processed "/home/user/Downloads/Empty" [] empty_outcome]).
Proof.
  destruct (@empty_playlist_not_skipped fetcher_model pool_model host_model resolver_model
              video_with_audio_params "Playlist Video with Audio" "/home/user/Downloads"
              "https://www.youtube.com/playlist?list=EMPTY" (mkInfo (Some "Empty") (Some []))
              state3)
    as (v & _ & _ & _ & _ & _ & Hall).
  - reflexivity.
  - reflexivity.
  - rewrite (Hall ["https://www.youtube.com/playlist?list=EMPTY"]
                  [mkInfo (Some "Empty") (Some [])]); [reflexivity|].
    repeat constructor.
Defined.

(** A url that resolves without an [entries] key takes the skip. *)
Example not_a_playlist_example :
  @download_video_with_audio_playlist fetcher_model pool_model host_model resolver_model
    ["https://www.youtube.com/watch?v=abc"] state3
  = Some (state3, [NotAPlaylist]).
Proof. reflexivity. Qed.

(** ** Playlist urls in single-item mode *)



(** With the model of [urllib.parse], a field with a blank value is not a
    parameter for [parse_qs]: a YouTube url with [list=...] and a blank [v=]
    counts as a playlist url, and one with a blank [list=] does not. *)
Example blank_values_example :
  @is_pure_playlist_url urllib_model "https://www.youtube.com/watch?v=&list=PL1" = true
  ∧ @is_pure_playlist_url urllib_model "https://www.youtube.com/playlist?list=" = false
  ∧ @is_pure_playlist_url urllib_model "https://www.youtube.com/watch?v=abc&list=PL1" = false
  ∧ @is_pure_playlist_url urllib_model "https://youtu.be/abc" = false.
Proof. repeat split; vm_compute; reflexivity. Qed.

(** * Further properties of the code *)

(** ** The url syntax check *)

Lemma strip_prefix_Some p s r : strip_prefix p s = Some r ↔ s = p +:+ r.
Proof.
  revert s. induction p as [|a p IH]; intros s; simpl.
  - split; [by intros [= ->]|by intros ->].
  - destruct s as [|b s]; [done|].
    destruct (Ascii.eqb_spec a b) as [->|Hne].
    + rewrite IH. split; [by intros ->|by intros [= ->]].
    + split; [done|]. intros [= ? ?]. done.
Qed.

Lemma starts_host_check rest :
  starts_host rest ↔
  match rest with
  | String c t =>
      if Ascii.eqb c "-" || is_word_char c || Ascii.eqb c "." then true
      else if Ascii.eqb c "%" then
        match t with
        | String h1 (String h2 _) => is_hex_digit h1 && is_hex_digit h2
        | _ => false
        end
      else false
  | EmptyString => false
  end = true.
Proof.
  unfold starts_host. split.
  - intros [(c & t & -> & Hc)|(h1 & h2 & t & -> & Hh1 & Hh2)].
    + destruct Hc as [->|[Hw| ->]]; [done| |done].
      rewrite Hw. by rewrite orb_true_r.
    + simpl. by rewrite Hh1, Hh2.
  - destruct rest as [|c t]; [done|].
    destruct (Ascii.eqb c "-" || is_word_char c || Ascii.eqb c ".") eqn:Hc.
    + intros _. left. exists c, t. split; [done|].
      apply orb_true_iff in Hc as [[Hc|Hc]%orb_true_iff|Hc]; rewrite ?Ascii.eqb_eq in Hc; auto.
    + destruct (Ascii.eqb_spec c "%") as [->|]; [|done].
      destruct t as [|h1 [|h2 t]]; [done..|].
      intros [? ?]%andb_true_iff. right. by exists h1, h2, t.
Qed.

Lemma is_valid_url_inv url :
  is_valid_url url = true →
  ∃ rest, (url = "http://" +:+ rest ∨ url = "https://" +:+ rest) ∧ starts_host rest.
Proof.
  unfold is_valid_url.
  destruct (strip_prefix "http" url) as [r|] eqn:Hhttp; [|done].
  apply strip_prefix_Some in Hhttp as ->.
  destruct (strip_prefix "s" r) as [r'|] eqn:Hs.
  - apply strip_prefix_Some in Hs as ->.
    destruct (strip_prefix "://" r') as [rest|] eqn:Hrest; [|done].
    apply strip_prefix_Some in Hrest as ->.
    intros Hhost. exists rest. split; [by right|]. by apply starts_host_check.
  - destruct (strip_prefix "://" r) as [rest|] eqn:Hrest; [|done].
    apply strip_prefix_Some in Hrest as ->.
    intros Hhost. exists rest. split; [by left|]. by apply starts_host_check.
Qed.

Lemma is_valid_url_intro scheme rest :
  scheme = "http://" ∨ scheme = "https://" → starts_host rest →
  is_valid_url (scheme +:+ rest) = true.
Proof. intros [-> | ->] Hhost%starts_host_check; exact Hhost. Qed.


(** X2. The check is not anchored at the end: whatever follows a valid url
    keeps it valid. *)
Theorem is_valid_url_extend (url tail : string) :
  is_valid_url url = true → is_valid_url (url +:+ tail) = true.
Proof.
  intros (rest & Hurl & Hhost)%is_valid_url_inv.
  assert (starts_host (rest +:+ tail)) as Hhost'.
  { destruct Hhost as [(c & t & -> & Hc)|(h1 & h2 & t & -> & Hh1 & Hh2)].
    - left. by exists c, (t +:+ tail).
    - right. by exists h1, h2, (t +:+ tail). }
  destruct Hurl as [-> | ->].
  - apply (is_valid_url_intro "http://" (rest +:+ tail)); [by left|done].
  - apply (is_valid_url_intro "https://" (rest +:+ tail)); [by right|done].
Qed.

Lemma is_valid_url_extend_witness :
  is_valid_url ("http://a" +:+ " <b>; rm -rf") = true.
Proof. apply (is_valid_url_extend "http://a" " <b>; rm -rf"). reflexivity. Defined.

(** ** Reading the urls *)

Section intake.
Context `{UrlLib}.


(** X3. Every url [get_urls] returns is a stripped input line, is not
    blank, passes [is_valid_url] and, in single-item mode, is not a pure
    playlist url; the urls come in the order of the lines. *)
Theorem get_urls_sound (expect_playlist : bool) (lines : list string) :
  Forall (λ url, url ≠ "" ∧ is_valid_url url = true
                 ∧ (expect_playlist = false → is_pure_playlist_url url = false))
    (get_urls expect_playlist lines)
  ∧ sublist (get_urls expect_playlist lines) (Py.strip <$> lines).
Proof.
  induction lines as [|line lines [IH1 IH2]]; [by split; [constructor|]|].
  cbn [get_urls]. rewrite fmap_cons.
  destruct (decide (Py.strip line = "")) as [|Hne];
    [split; [constructor|apply sublist_nil_l]|].
  destruct (is_valid_url (Py.strip line)) eqn:Hvalid; simpl;
    [|split; [done|by apply sublist_cons]].
  destruct expect_playlist; simpl.
  - split; [by constructor|by apply sublist_skip].
  - destruct (is_pure_playlist_url (Py.strip line)) eqn:Hpure.
    + split; [done|by apply sublist_cons].
    + split; [by constructor|by apply sublist_skip].
Qed.

(** X4. Reading stops at the first blank line: the lines after it are not
    read, whatever they hold. *)
Theorem get_urls_stops_at_blank (expect_playlist : bool)
    (before : list string) (blank : string) (after : list string) :
  Py.strip blank = "" →
  get_urls expect_playlist (before ++ blank :: after) = get_urls expect_playlist before.
Proof.
  intros Hblank. induction before as [|line before IH].
  - simpl. by rewrite Hblank.
  - rewrite <- app_comm_cons. cbn [get_urls]. rewrite IH. done.
Qed.

(** X5. Playlist mode differs from single-item mode only by the playlist
    test: the single-item result is the playlist-mode result without the
    pure playlist urls, and playlist mode does not ask that a url be a
    playlist. *)
Theorem get_urls_modes (lines : list string) :
  get_urls false lines
  = filter (λ url, is_pure_playlist_url url = false) (get_urls true lines).
Proof.
  induction lines as [|line lines IH]; [done|].
  cbn [get_urls]. destruct (decide (Py.strip line = "")); [done|].
  destruct (is_valid_url (Py.strip line)); simpl; [|done].
  destruct (is_pure_playlist_url (Py.strip line)) eqn:Hpure.
  - rewrite filter_cons_False by congruence. done.
  - rewrite filter_cons_True by done. by rewrite IH.
Qed.
End intake.

Lemma get_urls_stops_at_blank_witness :
  @get_urls urllib_model false
    (["https://a.example/1"; "not a url"] ++ "   " :: ["https://a.example/2"])
  = ["https://a.example/1"].
Proof.
  rewrite (@get_urls_stops_at_blank urllib_model false
             ["https://a.example/1"; "not a url"] "   " ["https://a.example/2"]);
    reflexivity.
Defined.

(** ** The options handed to the fetcher *)

Lemma concurrent_ydl_opts_lookup (o : gmap string PyVal) (k : string) :
  concurrent_ydl_opts o !! k =
    if decide (k = "quiet") then Some (VBool true)
    else if decide (k = "progress_hooks") then Some (VList [])
    else o !! k.
Proof.
  unfold concurrent_ydl_opts.
  destruct (decide (k = "quiet")) as [->|Hq]; [by rewrite lookup_insert_eq|].
  rewrite lookup_insert_ne by done.
  destruct (decide (k = "progress_hooks")) as [->|Hp]; [by rewrite lookup_insert_eq|].
  by rewrite lookup_insert_ne.
Qed.



Lemma mode_params_lookup_None (params : gmap string PyVal) (k : string) :
  params ∈ mode_params → k ≠ "format" → k ≠ "postprocessors" → params !! k = None.
Proof.
  unfold mode_params. rewrite !elem_of_cons, elem_of_nil.
  intros [->|[->|[->|[]]]] Hf Hp;
    unfold video_with_audio_params, audio_params, video_only_params;
    by rewrite lookup_insert_ne, lookup_singleton_ne by done.
Qed.

Lemma retry_ydl_opts_base output_dir mode k :
  k ≠ "noplaylist" → k ≠ "outtmpl" → k ≠ "format" → k ≠ "postprocessors" →
  retry_ydl_opts output_dir mode !! k = base_ydl_opts output_dir !! k.
Proof.
  intros Hn Ho Hf Hp. unfold retry_ydl_opts, update.
  assert (∀ params : gmap string PyVal, ∀ o : gmap string PyVal,
            params !! k = None → (params ∪ o) !! k = o !! k) as Hunion.
  { intros params o Hk. by rewrite lookup_union_r. }
  assert (video_with_audio_params !! k = None ∧ audio_params !! k = None
          ∧ video_only_params !! k = None) as (Hva & Ha & Hvo).
  { repeat split; apply mode_params_lookup_None; try done;
      unfold mode_params; rewrite !elem_of_cons; tauto. }
  repeat case_match; rewrite ?Hunion by done;
    by rewrite ?lookup_insert_ne by done.
Qed.

(** X7. No menu entry and no retry changes the retry and resume policy of
    [base_ydl_opts]: the options of the three single-item entries, of the
    three playlist entries and of a retry for any label, and the quiet copy
    of a batch of several jobs, all have 5 retries, 10 fragment retries,
    [continuedl] and [nooverwrites]. *)
Theorem base_policy_kept (params : gmap string PyVal)
    (output_dir playlist_dir mode : string) :
  params ∈ mode_params →
  keeps_base_policy (single_ydl_opts params output_dir)
  ∧ keeps_base_policy (playlist_ydl_opts params output_dir playlist_dir)
  ∧ keeps_base_policy (retry_ydl_opts output_dir mode)
  ∧ keeps_base_policy (concurrent_ydl_opts (single_ydl_opts params output_dir))
  ∧ keeps_base_policy (concurrent_ydl_opts (playlist_ydl_opts params output_dir playlist_dir))
  ∧ keeps_base_policy (concurrent_ydl_opts (retry_ydl_opts output_dir mode)).
Proof.
  intros Hparams.
  assert (keeps_base_policy (retry_ydl_opts output_dir mode)) as Hretry.
  { unfold keeps_base_policy. by rewrite !retry_ydl_opts_base by done. }
  assert (∀ o, keeps_base_policy o → keeps_base_policy (concurrent_ydl_opts o)) as Hconc.
  { unfold keeps_base_policy. intros o Ho. by rewrite !concurrent_ydl_opts_lookup. }
  assert (keeps_base_policy (single_ydl_opts params output_dir)
          ∧ keeps_base_policy (playlist_ydl_opts params output_dir playlist_dir)) as [Hs Hp].
  { unfold mode_params in Hparams.
    rewrite !elem_of_cons, elem_of_nil in Hparams.
    destruct Hparams as [->|[->|[->|[]]]]; by repeat split. }
  auto 10.
Qed.

Lemma base_policy_kept_witness :
  keeps_base_policy
    (concurrent_ydl_opts (retry_ydl_opts "/music" "Playlist Video without Audio")).
Proof.
  apply (base_policy_kept audio_params "/music" "/music/Mix" "Playlist Video without Audio").
  unfold mode_params. rewrite !elem_of_cons. tauto.
Defined.

Lemma mode_params_lookup_format (params : gmap string PyVal) (k : string) :
  params ∈ mode_params → k = "format" ∨ k = "postprocessors" → is_Some (params !! k).
Proof.
  unfold mode_params. rewrite !elem_of_cons, elem_of_nil.
  intros [->|[->|[->|[]]]] [->| ->]; by eexists.
Qed.

(** Setting [noplaylist] before or together with the parameters of the mode
    gives the same dictionary. *)
Lemma update_after_noplaylist (params : gmap string PyVal) (output_dir : string) :
  params ∈ mode_params →
  update params (<["noplaylist" := VBool true]> (base_ydl_opts output_dir))
  = single_ydl_opts params output_dir.
Proof.
  intros Hparams. apply map_eq. intros k. unfold single_ydl_opts, update.
  destruct (decide (k = "format" ∨ k = "postprocessors")) as [Hk|Hk].
  - destruct (mode_params_lookup_format params k Hparams Hk) as [v Hv].
    rewrite (lookup_union_Some_l _ _ _ v) by done.
    rewrite (lookup_union_Some_l _ _ _ v); [done|].
    rewrite lookup_insert_ne; [done|]. by destruct Hk as [->| ->].
  - assert (params !! k = None) as Hnone by (apply mode_params_lookup_None; tauto).
    rewrite lookup_union_r by done.
    destruct (decide (k = "noplaylist")) as [->|Hn].
    + rewrite lookup_insert_eq. by rewrite (lookup_union_Some_l _ _ _ (VBool true))
        by apply lookup_insert_eq.
    + rewrite lookup_insert_ne by done.
      rewrite lookup_union_r; [done|]. by rewrite lookup_insert_ne.
Qed.

(** X8. A failure recorded by the single-item entries [Video with Audio]
    and [Audio] is retried with exactly the options of the entry that
    recorded it, when the same output directory is chosen. *)
Theorem retry_matches_single_entry (output_dir : string) :
  retry_ydl_opts output_dir "Video with Audio"
    = single_ydl_opts video_with_audio_params output_dir
  ∧ retry_ydl_opts output_dir "Audio" = single_ydl_opts audio_params output_dir.
Proof.
  split.
  - rewrite <- update_after_noplaylist; [done|].
    unfold mode_params. rewrite !elem_of_cons. tauto.
  - rewrite <- update_after_noplaylist; [done|].
    unfold mode_params. rewrite !elem_of_cons. tauto.
Qed.

(** X9. A retry lets the fetcher expand playlists exactly when the label
    contains [Playlist], and then files the result under a directory named by
    the [%(playlist_title)s] template; the playlist entries themselves fetch
    member by member with [noplaylist] set and file under the directory they
    created. *)
Theorem retry_playlist_switch (output_dir mode : string) :
  retry_ydl_opts output_dir mode !! "noplaylist"
    = Some (VBool (negb (Py.contains "Playlist" mode)))
  ∧ retry_ydl_opts output_dir mode !! "outtmpl"
    = Some (VStr (if Py.contains "Playlist" mode
                  then Py.path_join (Py.path_join output_dir "%(playlist_title)s")
                         "%(title)s [%(id)s].%(ext)s"
                  else Py.path_join output_dir "%(title)s [%(id)s].%(ext)s"))
  ∧ ∀ params playlist_dir, params ∈ mode_params →
      playlist_ydl_opts params output_dir playlist_dir !! "noplaylist" = Some (VBool true)
      ∧ playlist_ydl_opts params output_dir playlist_dir !! "outtmpl"
        = Some (VStr (Py.path_join playlist_dir "%(title)s [%(id)s].%(ext)s")).
Proof.
  split; [|split].
  - unfold retry_ydl_opts. by repeat case_match.
  - unfold retry_ydl_opts. by repeat case_match.
  - intros params playlist_dir Hparams. unfold mode_params in Hparams.
    rewrite !elem_of_cons, elem_of_nil in Hparams.
    destruct Hparams as [->|[->|[->|[]]]]; by split.
Qed.

(** ** What a batch does to the registry *)

(** X10. A non-empty batch only appends to the registry, one record per
    failed job and none for a job that succeeded: the records that were
    there stay in front, every new record carries the label of the batch and
    the url of one of its jobs, and the concurrency limit is not touched. *)
Theorem run_download_appends `{MediaFetcher} `{ThreadPool}
    (ydl_opts : gmap string PyVal) (urls : list string) (desc : string) (s : State) :
  urls ≠ [] → pool_completes s (length urls) →
  ∃ s' out,
    run_download ydl_opts urls desc s = Some (s', out)
    ∧ FAILED_DOWNLOADS s' = FAILED_DOWNLOADS s ++ failed out
    ∧ (length (FAILED_DOWNLOADS s') + length (succeeded out)
       = length (FAILED_DOWNLOADS s) + length urls)%nat
    ∧ Forall (λ r, fr_desc r = desc ∧ fr_url r ∈ urls) (failed out)
    ∧ Forall (λ url, url ∈ urls) (succeeded out)
    ∧ MAX_WORKERS s' = MAX_WORKERS s.
Proof.
  intros Hne Hpool. eexists _, _. split; [by apply run_download_outcome|].
  pose proof (job_results_partitioned (length (issued s)) ydl_opts desc urls) as Hpart.
  simpl in Hpart.
  split; [done|]. split; [|split; [|split; [|done]]].
  - simpl. rewrite length_app. apply Partitioned_length in Hpart. lia.
  - apply Forall_forall. intros r Hr. by apply job_results_failed in Hr.
  - apply Forall_forall. intros url Hurl.
    apply Partitioned_sublist in Hpart as [Hsub _].
    by apply (sublist_subseteq _ _ Hsub).
Qed.

Lemma run_download_appends_witness :
  ∃ s' out,
    @run_download fetcher_model pool_model ∅
      ["https://a.example/1"; "https://a.example/bad"] "Audio" state3 = Some (s', out)
    ∧ FAILED_DOWNLOADS s'
      = registry3 ++ [("https://a.example/bad", "Audio",
                       "ERROR: unable to download https://a.example/bad")].
Proof.
  destruct (@run_download_appends fetcher_model pool_model ∅
              ["https://a.example/1"; "https://a.example/bad"] "Audio" state3)
    as (s' & out & Hrun & Hfd & _).
  - discriminate.
  - intros _. split; [simpl; lia|]. intros i Hi. simpl in Hi.
    apply list_elem_of_In. vm_compute. destruct i as [|[|i]]; [tauto..|lia].
  - exists s', out. split; [exact Hrun|].
    rewrite Hfd. vm_compute in Hrun. injection Hrun as _ <-. reflexivity.
Defined.

(** ** What the retries do to the registry *)

Lemma pop_step_Permutation acc idx :
  (pop_step acc idx).1 ++ (pop_step acc idx).2 ≡ₚ acc.1 ++ acc.2.
Proof.
  destruct acc as [registry to_retry].
  destruct (decide (valid_index (length registry) idx)) as [Hv|Hv].
  - destruct (lookup_lt_is_Some_2 registry (Z.to_nat idx)) as [r Hr];
      [unfold valid_index in Hv; lia|].
    rewrite (pop_step_valid _ _ _ r) by done. simpl.
    rewrite (delete_Permutation registry _ r Hr) at 2.
    rewrite (Permutation_app_comm to_retry [r]). simpl.
    by rewrite Permutation_middle.
  - by rewrite pop_step_invalid.
Qed.

Lemma pop_selected_Permutation sel registry :
  (pop_selected sel registry).1 ++ (pop_selected sel registry).2 ≡ₚ registry.
Proof.
  unfold pop_selected.
  assert (∀ acc, (foldl pop_step acc sel).1 ++ (foldl pop_step acc sel).2 ≡ₚ acc.1 ++ acc.2)
    as Hfold.
  { induction sel as [|idx sel IH]; intros acc; [done|].
    cbn [foldl]. by rewrite IH, pop_step_Permutation. }
  rewrite Hfold. simpl. by rewrite app_nil_r.
Qed.



Lemma isdigit_all_digits s : Py.isdigit s = true → Py.all_digits s = true ∧ s ≠ "".
Proof. by destruct s. Qed.

Lemma digits_no_comma s : Py.all_digits s = true → Py.contains "," s = false.
Proof.
  induction s as [|c s IH]; [done|].
  cbn [Py.all_digits]. intros [Hc Hs]%andb_true_iff.
  rewrite contains_unfold, (IH Hs), orb_false_r.
  cbn [String.prefix]. destruct (ascii_dec "," c) as [<-|]; [done|done].
Qed.

Lemma set_FAILED_DOWNLOADS_same s : set_FAILED_DOWNLOADS (FAILED_DOWNLOADS s) s = s.
Proof. by destruct s. Qed.

Section retry_one.
Context `{MediaFetcher} `{ThreadPool} `{Host}.

(** The branch [choice.isdigit()], as a function of the index. *)
Lemma resume_digit line s :
  Py.isdigit (Py.lower (Py.strip line)) = true →
  resume_failed_downloads line s =
    let idx := Py.int (Py.lower (Py.strip line)) - 1 in
    match (FAILED_DOWNLOADS s !! Z.to_nat idx : option FailureRecord) with
    | Some (url, desc, _) =>
        if decide (valid_index (length (FAILED_DOWNLOADS s)) idx)
        then _retry_downloads [url] desc
               (set_FAILED_DOWNLOADS (delete (Z.to_nat idx) (FAILED_DOWNLOADS s)) s)
        else Some s
    | None => Some s
    end.
Proof.
  intros Hdigit. unfold resume_failed_downloads.
  destruct (isdigit_all_digits _ Hdigit) as [Hall _].
  destruct (FAILED_DOWNLOADS s) as [|r0 registry0] eqn:Hreg.
  { done. }
  destruct (decide (Py.lower (Py.strip line) = "c")) as [Hc|_];
    [by rewrite Hc in Hdigit|].
  destruct (decide (Py.lower (Py.strip line) = "a")) as [Ha|_];
    [by rewrite Ha in Hdigit|].
  rewrite (digits_no_comma _ Hall), Hdigit. cbn zeta.
  set (idx := Py.int (Py.lower (Py.strip line)) - 1).
  destruct (decide (valid_index (length (r0 :: registry0)) idx)) as [Hv|Hv].
  - unfold valid_index in Hv.
    destruct (Z.leb_spec 0 idx); [|lia].
    destruct (Z.ltb_spec idx (Z.of_nat (length (r0 :: registry0)))); [|lia].
    reflexivity.
  - unfold valid_index in Hv.
    destruct (Z.leb_spec 0 idx); cbn [andb];
      [|by destruct (_ !! _) as [[[? ?] ?]|]].
    destruct (Z.ltb_spec idx (Z.of_nat (length (r0 :: registry0)))); [lia|].
    by destruct (_ !! _) as [[[? ?] ?]|].
Qed.


End retry_one.


Lemma prefix_refl s : String.prefix s s = true.
Proof. induction s as [|c s IH]; [done|]. simpl. by destruct (ascii_dec c c). Qed.

Lemma contains_suffix p s : Py.contains p (s +:+ p) = true.
Proof. apply (prefix_app_contains s p). apply prefix_refl. Qed.

Lemma split_digits_comma s :
  Py.all_digits s = true → Py.split "," (s +:+ ",") = [s; ""].
Proof.
  induction s as [|c s IH]; [done|].
  cbn [Py.all_digits]. intros [Hc Hs]%andb_true_iff.
  change (String c s +:+ ",") with (String c (s +:+ ",")).
  cbn [Py.split]. rewrite (IH Hs).
  destruct (Ascii.eqb_spec c ",") as [->|]; [done|done].
Qed.

Lemma parse_indices_digits_comma s :
  Py.isdigit s = true → parse_indices (s +:+ ",") = [Py.int s - 1].
Proof.
  intros Hd. destruct (isdigit_all_digits s Hd) as [Hall _].
  unfold parse_indices. rewrite split_digits_comma by done.
  rewrite filter_cons_True by (by rewrite strip_digits).
  rewrite filter_cons_False by done.
  rewrite filter_nil. simpl. by rewrite strip_digits.
Qed.

(** X13. Typing a number followed by a comma does what typing the number
    alone does: the branch for several records, given one index, and the
    branch for one record leave the same state. *)
Theorem retry_one_as_selection `{MediaFetcher} `{ThreadPool} `{Host}
    (line line' : string) (s : State) :
  Py.isdigit (Py.lower (Py.strip line)) = true →
  Py.lower (Py.strip line') = Py.lower (Py.strip line) +:+ "," →
  resume_failed_downloads line' s = resume_failed_downloads line s.
Proof.
  intros Hdigit Hline'. rewrite (resume_digit line s Hdigit). cbv zeta.
  destruct (isdigit_all_digits _ Hdigit) as [Hall Hne].
  unfold resume_failed_downloads. rewrite Hline'.
  set (c := Py.lower (Py.strip line)) in *.
  destruct (FAILED_DOWNLOADS s) as [|r0 registry0] eqn:Hreg; [done|].
  rewrite decide_False.
  2:{ destruct c as [|d [|d' c']]; [done|..]; intros [= ? ?]; done. }
  rewrite decide_False.
  2:{ destruct c as [|d [|d' c']]; [done|..]; intros [= ? ?]; done. }
  rewrite contains_suffix, parse_indices_digits_comma by done.
  change (sorted_reverse [Py.int c - 1]) with [Py.int c - 1].
  unfold pop_selected. cbn [foldl].
  destruct (decide (valid_index (length (r0 :: registry0)) (Py.int c - 1))) as [Hv|Hv].
  - destruct (lookup_lt_is_Some_2 (r0 :: registry0) (Z.to_nat (Py.int c - 1)))
      as [[[url desc] e] Hr]; [unfold valid_index in Hv; lia|].
    rewrite (pop_step_valid _ _ _ (url, desc, e)) by done.
    rewrite Hr. simpl app. change (reverse [(url, desc, e)]) with [(url, desc, e)].
    cbn [retry_each].
    by destruct (_retry_downloads [url] desc _).
  - rewrite pop_step_invalid by done. simpl reverse. cbn [retry_each].
    rewrite <- Hreg, set_FAILED_DOWNLOADS_same.
    by destruct (_ !! _) as [[[? ?] ?]|].
Qed.

Lemma retry_one_as_selection_witness :
  @resume_failed_downloads fetcher_model pool_model host_model "2," state3
  = @resume_failed_downloads fetcher_model pool_model host_model " 2" state3.
Proof.
  apply (@retry_one_as_selection fetcher_model pool_model host_model " 2" "2," state3);
    reflexivity.
Defined.



(** ** Retry of all records: order and conservation *)




Section retry_all_more.
Context `{MediaFetcher} `{ThreadPool} `{Host}.


End retry_all_more.


(** ** A batch followed by retry-all *)




(** ** Playlists *)

Section playlist_more.
Context `{MediaFetcher} `{ThreadPool} `{Host} `{PlaylistResolver}.

(** X17. A playlist whose directory can be created is fetched member by
    member: the jobs are the urls of the entries that have one, in playlist
    order (an entry without url is dropped without a record), each is tallied
    once, a failure is recorded under the label of the playlist entry, and
    the files go under the directory named after the sanitized title. *)
Theorem process_playlist_members (params : gmap string PyVal)
    (desc output_dir pl_url : string) (info : Info) (entries : list Entry) (s : State) :
  extract_info pl_url = Returned info →
  info_entries info = Some entries →
  makedirs (playlist_dir_of output_dir info) = Returned () →
  omap entry_url entries ≠ [] →
  pool_completes s (length (omap entry_url entries)) →
  ∃ s' out,
    process_playlist params desc output_dir pl_url s
      = Some (s', Processed (playlist_dir_of output_dir info) (omap entry_url entries) out)
    ∧ Some <$> omap entry_url entries = filter is_Some (entry_url <$> entries)
    ∧ Partitioned (omap entry_url entries) (succeeded out) (failed out)
    ∧ FAILED_DOWNLOADS s' = FAILED_DOWNLOADS s ++ failed out
    ∧ Forall (λ r, fr_desc r = desc) (failed out)
    ∧ last (issued s')
      = Some (mkBatchCall
                (playlist_ydl_opts params output_dir (playlist_dir_of output_dir info))
                (omap entry_url entries) desc (FAILED_DOWNLOADS s)).
Proof.
  intros Hinfo Hentries Hmk Hne Hpool.
  unfold process_playlist. rewrite Hinfo, Hentries.
  fold (playlist_dir_of output_dir info). rewrite Hmk.
  rewrite run_download_outcome by done. cbn [mbind option_bind].
  eexists _, _. split; [done|]. split; [|split; [|split; [done|split]]].
  - clear. induction entries as [|[[u|]] entries IH]; [done|..].
    + rewrite fmap_cons. cbn [omap list_omap entry_url].
      rewrite fmap_cons, filter_cons_True by (by eexists). by rewrite IH.
    + rewrite fmap_cons. cbn [omap list_omap entry_url].
      rewrite filter_cons_False by (by intros [? ?]). done.
  - apply job_results_partitioned.
  - apply Forall_forall. intros r Hr. by apply job_results_failed in Hr as [? _].
  - simpl. by rewrite last_snoc.
Qed.

(** X18. A url that does not resolve, that resolves to something without
    entries, or whose directory cannot be created, is passed over: it leaves
    the state as it was and the loop goes on with the next url. *)
Theorem process_playlists_skips (params : gmap string PyVal)
    (desc output_dir pl_url : string) (rest : list string) (s : State) :
  (∃ e, extract_info pl_url = Raised e)
  ∨ (∃ info, extract_info pl_url = Returned info
             ∧ (info_entries info = None
                ∨ ∃ e, makedirs (playlist_dir_of output_dir info) = Raised e)) →
  ∃ v,
    process_playlist params desc output_dir pl_url s = Some (s, v)
    ∧ (v = NotAPlaylist ∨ ∃ e, v = ProcessingError e)
    ∧ process_playlists params desc output_dir (pl_url :: rest) s
      = (λ r, (r.1, v :: r.2)) <$> process_playlists params desc output_dir rest s.
Proof.
  intros Hskip.
  assert (∃ v, process_playlist params desc output_dir pl_url s = Some (s, v)
               ∧ (v = NotAPlaylist ∨ ∃ e, v = ProcessingError e)) as (v & Hv & Hkind).
  { unfold process_playlist.
    destruct Hskip as [[e ->]|(info & -> & [Hnone|[e Hmk]])].
    - eexists. split; [done|]. right. by eexists.
    - rewrite Hnone. eexists. split; [done|]. by left.
    - destruct (info_entries info); [|by eexists; split; [|left]].
      fold (playlist_dir_of output_dir info). rewrite Hmk.
      eexists. split; [done|]. right. by eexists. }
  exists v. split; [done|]. split; [done|].
  cbn [process_playlists]. rewrite Hv. cbn [mbind option_bind].
  by destruct (process_playlists params desc output_dir rest s) as [[s' vs]|].
Qed.


(** X19. The playlist loop always comes to its end when the pool does its
    work: there is one verdict per url, whatever the resolver, the file
    system and the fetcher do; the registry is only appended to and the
    concurrency limit is unchanged. *)
Theorem process_playlists_total (params : gmap string PyVal)
    (desc output_dir : string) (urls : list string) (s : State) :
  pool_always_completes (MAX_WORKERS s) →
  ∃ s' verdicts new,
    process_playlists params desc output_dir urls s = Some (s', verdicts)
    ∧ length verdicts = length urls
    ∧ FAILED_DOWNLOADS s' = FAILED_DOWNLOADS s ++ new
    ∧ Forall (λ r, fr_desc r = desc) new
    ∧ MAX_WORKERS s' = MAX_WORKERS s.
Proof.
  revert s. induction urls as [|pl_url urls IH]; intros s Hpool.
  - exists s, [], []. by rewrite app_nil_r.
  - assert (∃ s1 v new1,
              process_playlist params desc output_dir pl_url s = Some (s1, v)
              ∧ FAILED_DOWNLOADS s1 = FAILED_DOWNLOADS s ++ new1
              ∧ Forall (λ r, fr_desc r = desc) new1
              ∧ MAX_WORKERS s1 = MAX_WORKERS s) as (s1 & v & new1 & Hone & Hfd1 & Hd1 & Hw1).
    { unfold process_playlist.
      destruct (extract_info pl_url) as [info|e];
        [|by exists s, (ProcessingError e), []; rewrite app_nil_r].
      destruct (info_entries info) as [entries|];
        [|by exists s, NotAPlaylist, []; rewrite app_nil_r].
      destruct (makedirs _) as [u|e];
        [|by exists s, (ProcessingError e), []; rewrite app_nil_r].
      destruct (omap entry_url entries) as [|u0 us] eqn:Hurls.
      - eexists s, _, []. rewrite app_nil_r. done.
      - rewrite run_download_outcome; [|done|].
        2:{ intros _. destruct Hpool as [Hw Hall]. split; [done|]. intros i Hi. by apply Hall. }
        cbn [mbind option_bind]. eexists _, _, _. split; [done|]. split; [done|].
        split; [|done]. apply Forall_forall. intros r Hr.
        by apply job_results_failed in Hr as [? _]. }
    destruct (IH s1) as (s' & vs & new & Hrest & Hlen & Hfd & Hd & Hw);
      [by rewrite Hw1|].
    exists s', (v :: vs), (new1 ++ new).
    cbn [process_playlists]. rewrite Hone. cbn [mbind option_bind]. rewrite Hrest.
    cbn [mbind option_bind]. split; [done|]. split; [by simpl; rewrite Hlen|].
    split; [by rewrite Hfd, Hfd1, app_assoc|].
    split; [by apply Forall_app|congruence].
Qed.
End playlist_more.

Lemma process_playlist_members_witness :
  ∃ s' out,
    @process_playlist fetcher_model pool_model host_model resolver_model
      audio_params "Playlist Audio" "/music" "https://www.youtube.com/playlist?list=TWO" state3
    = Some (s', Processed "/music/Two" ["https://youtu.be/a"] out)
    ∧ succeeded out = ["https://youtu.be/a"].
Proof.
  destruct (@process_playlist_members fetcher_model pool_model host_model resolver_model
              audio_params "Playlist Audio" "/music" "https://www.youtube.com/playlist?list=TWO"
              (mkInfo (Some "Two") (Some [mkEntry (Some "https://youtu.be/a"); mkEntry None]))
              [mkEntry (Some "https://youtu.be/a"); mkEntry None] state3)
    as (s' & out & Hrun & _); [reflexivity..|discriminate| |].
  - intros Hlen. simpl in Hlen. lia.
  - exists s', out. split; [exact Hrun|].
    vm_compute in Hrun. injection Hrun as _ <-. reflexivity.
Defined.

Lemma process_playlists_skips_witness :
  @process_playlists fetcher_model pool_model host_model resolver_model
    audio_params "Playlist Audio" "/music"
    ["https://www.youtube.com/watch?v=abc"; "https://www.youtube.com/playlist?list=EMPTY"] state3
  = Some (state3, [NotAPlaylist; Processed "/music/Empty" [] empty_outcome]).
Proof.
  destruct (@process_playlists_skips fetcher_model pool_model host_model resolver_model
              audio_params "Playlist Audio" "/music" "https://www.youtube.com/watch?v=abc"
              ["https://www.youtube.com/playlist?list=EMPTY"] state3)
    as (v & Hv & _ & Hloop).
  - right. eexists. split; [reflexivity|]. left. reflexivity.
  - rewrite Hloop. vm_compute in Hv. injection Hv as <-. reflexivity.
Defined.

Lemma process_playlists_total_witness :
  ∃ s' verdicts,
    @process_playlists fetcher_model pool_model host_model resolver_model
      video_only_params "Playlist Video without Audio" "/music"
      ["https://nowhere.example/x"; "https://www.youtube.com/playlist?list=TWO"] state3
    = Some (s', verdicts)
    ∧ length verdicts = 2%nat.
Proof.
  destruct (@process_playlists_total fetcher_model pool_model host_model resolver_model
              video_only_params "Playlist Video without Audio" "/music"
              ["https://nowhere.example/x"; "https://www.youtube.com/playlist?list=TWO"] state3)
    as (s' & verdicts & new & Hrun & Hlen & _).
  - split; [simpl; lia|]. intros batch n i Hi. simpl.
    rewrite elem_of_reverse, elem_of_seq. lia.
  - exists s', verdicts. split; [exact Hrun|exact Hlen].
Defined.

(** ** The output directory *)





(** ** Reading the numbers of a selection *)














(** ** Invariants of a session *)

Lemma pool_futures_length {R : Type} (order : list nat) (tasks : list R) :
  length (pool_futures order tasks) = length tasks.
Proof.
  unfold pool_futures.
  rewrite <- (length_replicate (length tasks) (@None R)) at 2.
  generalize (replicate (length tasks) (@None R)).
  induction order as [|j order IH]; intros futures; [done|].
  cbn [foldl]. rewrite IH. destruct (tasks !! j); [apply length_insert|done].
Qed.

(** When [wait] returns, every future holds the result of its own task. *)
Lemma executor_wait_Some `{ThreadPool} {R : Type} max_workers batch
    (tasks results : list R) :
  executor_wait max_workers batch tasks = Some results → results = tasks.
Proof.
  unfold executor_wait. case_match; [done|]. intros Hm%mapM_Some.
  apply list_eq. intros i.
  pose proof (Forall2_length _ _ _ Hm) as Hlen. rewrite pool_futures_length in Hlen.
  destruct (results !! i) as [r|] eqn:Hr.
  - destruct (Forall2_lookup_r _ _ _ _ _ Hm Hr) as (f & Hf & Hid). simpl in Hid. subst f.
    unfold pool_futures in Hf.
    rewrite (pool_fold_lookup tasks) in Hf by apply length_replicate.
    case_decide.
    + by destruct (tasks !! i) as [t|]; simplify_eq/=.
    + apply lookup_replicate in Hf as [? _]. done.
  - apply lookup_ge_None in Hr. symmetry. apply lookup_ge_None. lia.
Qed.

Section invariants.
Context `{MediaFetcher} `{ThreadPool} `{Host} `{PlaylistResolver} `{UrlLib}.

(** Whenever [run_download] returns, it has either done nothing, for an
    empty list, or tallied every job of the batch. *)
Lemma run_download_inv ydl_opts urls desc s s' out :
  run_download ydl_opts urls desc s = Some (s', out) →
  (urls = [] ∧ s' = s ∧ out = empty_outcome)
  ∨ (urls ≠ [] ∧ out = tally (job_results (length (issued s)) ydl_opts desc urls)
     ∧ s' = state_after ydl_opts urls desc s out).
Proof.
  destruct (decide (urls = [])) as [->|Hne].
  - intros [= <- <-]. by left.
  - intros Hrun. right. split; [done|].
    destruct urls as [|u [|u2 urls]]; [done| |].
    + rewrite run_download_outcome in Hrun; [|done|intros ?; simpl in *; lia].
      by injection Hrun as <- <-.
    + unfold run_download in Hrun.
      destruct (executor_wait _ _ _) as [futures|] eqn:Hwait; [|done].
      apply executor_wait_Some in Hwait as ->.
      cbn [mbind option_bind] in Hrun.
      rewrite (collect_returned (u :: u2 :: urls) desc
                 (λ i url, download_single (length (issued s)) i
                             (concurrent_ydl_opts ydl_opts) url desc) _ 0 empty_outcome)
        in Hrun by done.
      cbn [mbind option_bind] in Hrun. rewrite outcome_app_empty in Hrun.
      injection Hrun as <- <-. split; [done|].
      unfold state_after. f_equal. by destruct (failed _); [rewrite app_nil_r|].
Qed.

Lemma run_download_keeps_inv ydl_opts urls desc s s' out :
  session_inv s → desc ∈ menu_labels → keeps_base_policy ydl_opts →
  run_download ydl_opts urls desc s = Some (s', out) →
  session_inv s'.
Proof.
  intros (Hw & Hreg & Hiss) Hdesc Hopts
    [(-> & -> & ->)|(Hne & -> & ->)]%run_download_inv; [done|].
  split; [done|]. split.
  - simpl. apply Forall_app. split; [done|].
    apply Forall_forall. intros r Hr. apply job_results_failed in Hr as [-> _]. done.
  - simpl. apply Forall_app. split; [done|]. by apply Forall_singleton.
Qed.

Lemma retry_downloads_keeps_inv urls mode s s' :
  session_inv s → mode ∈ menu_labels →
  _retry_downloads urls mode s = Some s' → session_inv s'.
Proof.
  intros Hinv Hmode. unfold _retry_downloads, run_download_with_log.
  destruct (run_download _ _ _ _) as [[s1 out]|] eqn:Hrun; [|done].
  intros [= <-]. eapply run_download_keeps_inv; [done|done| |exact Hrun].
  unfold keeps_base_policy. by rewrite !retry_ydl_opts_base by done.
Qed.

Lemma set_registry_keeps_inv registry s :
  session_inv s → Forall (λ r, fr_desc r ∈ menu_labels) registry →
  session_inv (set_FAILED_DOWNLOADS registry s).
Proof. by intros (? & ? & ?) ?. Qed.

Lemma retry_each_keeps_inv records s s' :
  session_inv s → Forall (λ r, fr_desc r ∈ menu_labels) records →
  retry_each records s = Some s' → session_inv s'.
Proof.
  revert s. induction records as [|[[url desc] e] records IH]; intros s Hinv Hrec.
  - by intros [= <-].
  - apply Forall_cons in Hrec as [Hd Hrec]. cbn [retry_each].
    destruct (_retry_downloads [url] desc s) as [s1|] eqn:Hone; [|done].
    cbn [mbind option_bind]. apply IH; [|done].
    by eapply retry_downloads_keeps_inv.
Qed.

Lemma retry_groups_keeps_inv groups s s' :
  session_inv s → Forall (λ g, g.1 ∈ menu_labels) groups →
  retry_groups groups s = Some s' → session_inv s'.
Proof.
  revert s. induction groups as [|[desc urls] groups IH]; intros s Hinv Hg.
  - by intros [= <-].
  - apply Forall_cons in Hg as [Hd Hg]. cbn [retry_groups].
    destruct (_retry_downloads urls desc s) as [s1|] eqn:Hone; [|done].
    cbn [mbind option_bind]. apply IH; [|done].
    by eapply retry_downloads_keeps_inv.
Qed.

Lemma resume_keeps_inv line s s' :
  session_inv s → resume_failed_downloads line s = Some s' → session_inv s'.
Proof.
  intros Hinv. pose proof Hinv as (Hw & Hreg & Hiss).
  unfold resume_failed_downloads.
  destruct (FAILED_DOWNLOADS s) as [|r0 registry0] eqn:Hfd; [by intros [= <-]|].
  rewrite <- Hfd in *. clear Hfd r0 registry0.
  case_decide; [by intros [= <-]|].
  case_decide.
  { apply retry_groups_keeps_inv; [by apply set_registry_keeps_inv|].
    apply Forall_forall. intros [d urls] Hg. simpl.
    destruct (group_by_desc_spec (FAILED_DOWNLOADS s)) as (_ & Hkeys & _).
    assert (d ∈ (group_by_desc (FAILED_DOWNLOADS s)).*1) as Hd.
    { apply list_elem_of_fmap. by exists (d, urls). }
    apply Hkeys, list_elem_of_fmap in Hd as (r & -> & Hr).
    rewrite Forall_forall in Hreg. by apply Hreg. }
  destruct (Py.contains "," _).
  { destruct (pop_selected _ _) as [kept to_retry] eqn:Hpop.
    pose proof (pop_selected_Permutation (sorted_reverse (parse_indices (Py.lower (Py.strip line))))
                  (FAILED_DOWNLOADS s)) as Hperm.
    rewrite Hpop in Hperm. simpl in Hperm. rewrite <- Hperm in Hreg.
    apply Forall_app in Hreg as [Hkept Hretry].
    apply retry_each_keeps_inv; [by apply set_registry_keeps_inv|].
    by rewrite reverse_Permutation. }
  destruct (Py.isdigit _); [|by intros [= <-]].
  destruct (_ && _); [|by intros [= <-]].
  destruct (FAILED_DOWNLOADS s !! _) as [[[url desc] e]|] eqn:Hr; [|by intros [= <-]].
  apply retry_downloads_keeps_inv.
  - apply set_registry_keeps_inv; [done|].
    by apply Forall_delete.
  - rewrite Forall_forall in Hreg. apply (Hreg (url, desc, e)).
    by eapply list_elem_of_lookup_2.
Qed.
End invariants.

Section session_invariant.
Context `{MediaFetcher} `{ThreadPool} `{Host} `{PlaylistResolver} `{UrlLib}.

Lemma mode_params_keep_policy params output_dir playlist_dir :
  params ∈ mode_params →
  keeps_base_policy (single_ydl_opts params output_dir)
  ∧ keeps_base_policy (playlist_ydl_opts params output_dir playlist_dir).
Proof.
  unfold mode_params. rewrite !elem_of_cons, elem_of_nil.
  intros [->|[->|[->|[]]]]; by repeat split.
Qed.

Lemma process_playlists_keeps_inv params desc output_dir urls s s' verdicts :
  session_inv s → params ∈ mode_params → desc ∈ menu_labels →
  process_playlists params desc output_dir urls s = Some (s', verdicts) →
  session_inv s'.
Proof.
  intros Hinv Hparams Hdesc. revert s verdicts Hinv.
  induction urls as [|pl_url urls IH]; intros s verdicts Hinv.
  - by intros [= <- <-].
  - cbn [process_playlists].
    destruct (process_playlist params desc output_dir pl_url s) as [[s1 v]|] eqn:Hone; [|done].
    cbn [mbind option_bind].
    destruct (process_playlists params desc output_dir urls s1) as [[s2 vs]|] eqn:Hrest;
      [|done].
    intros [= <- <-]. apply (IH s1 vs); [|done].
    unfold process_playlist in Hone.
    destruct (extract_info pl_url) as [info|e]; [|by injection Hone as <- <-].
    destruct (info_entries info) as [entries|]; [|by injection Hone as <- <-].
    destruct (makedirs _) as [u|e]; [|by injection Hone as <- <-].
    destruct (run_download _ _ _ _) as [[s3 out]|] eqn:Hrun; [|done].
    injection Hone as <- <-.
    eapply run_download_keeps_inv; [done|done| |exact Hrun].
    by apply mode_params_keep_policy.
Qed.

Lemma download_single_mode_keeps_inv params desc urls s s' out :
  session_inv s → params ∈ mode_params → desc ∈ menu_labels →
  download_single_mode params desc urls s = Some (s', out) → session_inv s'.
Proof.
  intros Hinv Hparams Hdesc. unfold download_single_mode.
  destruct urls as [|u urls]; [by intros [= <- <-]|].
  apply run_download_keeps_inv; [done..|].
  by apply (mode_params_keep_policy params _ "").
Qed.

Lemma settings_keeps_inv answer s :
  session_inv s → session_inv (download_thread_settings answer s).
Proof.
  intros (Hw & Hreg & Hiss). unfold session_inv.
  destruct (download_thread_settings_registry answer s) as [-> ->].
  split; [by apply download_thread_settings_at_least_one|done].
Qed.

Lemma select_keeps_inv line typed s s' :
  session_inv s → select line typed s = Some s' → session_inv s'.
Proof.
  intros Hinv. unfold select.
  assert (∀ p, p ∈ mode_params ↔ p = video_with_audio_params ∨ p = audio_params
                                  ∨ p = video_only_params) as Hp.
  { intros p. unfold mode_params. rewrite !elem_of_cons, elem_of_nil. tauto. }
  assert (∀ d, d ∈ menu_labels ↔
            d = "Video with Audio" ∨ d = "Audio" ∨ d = "Video without Audio"
            ∨ d = "Playlist Video with Audio" ∨ d = "Playlist Audio"
            ∨ d = "Playlist Video without Audio") as Hd.
  { intros d. unfold menu_labels. rewrite !elem_of_cons, elem_of_nil. tauto. }
  destruct (Py.isdigit _); simpl; [|by intros [= <-]].
  repeat case_match; try (by intros [= <-]); try done.
  - unfold download_video_with_audio.
    destruct (download_single_mode _ _ _ _) as [[s1 out]|] eqn:Hrun; [|done].
    intros [= <-]. eapply download_single_mode_keeps_inv; [done| | |exact Hrun];
      [apply Hp|apply Hd]; tauto.
  - unfold download_audio_single.
    destruct (download_single_mode _ _ _ _) as [[s1 out]|] eqn:Hrun; [|done].
    intros [= <-]. eapply download_single_mode_keeps_inv; [done| | |exact Hrun];
      [apply Hp|apply Hd]; tauto.
  - unfold download_video_only_single.
    destruct (download_single_mode _ _ _ _) as [[s1 out]|] eqn:Hrun; [|done].
    intros [= <-]. eapply download_single_mode_keeps_inv; [done| | |exact Hrun];
      [apply Hp|apply Hd]; tauto.
  - unfold download_video_with_audio_playlist.
    destruct (get_urls true _) as [|u urls]; [by intros [= <-]|].
    destruct (process_playlists _ _ _ _ _) as [[s1 vs]|] eqn:Hrun; [|done].
    intros [= <-]. eapply process_playlists_keeps_inv; [done| | |exact Hrun];
      [apply Hp|apply Hd]; tauto.
  - unfold download_audio_playlist.
    destruct (get_urls true _) as [|u urls]; [by intros [= <-]|].
    destruct (process_playlists _ _ _ _ _) as [[s1 vs]|] eqn:Hrun; [|done].
    intros [= <-]. eapply process_playlists_keeps_inv; [done| | |exact Hrun];
      [apply Hp|apply Hd]; tauto.
  - unfold download_video_only_playlist.
    destruct (get_urls true _) as [|u urls]; [by intros [= <-]|].
    destruct (process_playlists _ _ _ _ _) as [[s1 vs]|] eqn:Hrun; [|done].
    intros [= <-]. eapply process_playlists_keeps_inv; [done| | |exact Hrun];
      [apply Hp|apply Hd]; tauto.
  - by apply resume_keeps_inv.
  - intros [= <-]. by apply settings_keeps_inv.
Qed.

(** X22. Throughout a session, whatever is typed and whatever the
    collaborators answer: the concurrency limit is at least 1, so that the
    pool can always be created; every record of the registry carries one of
    the six labels of the download entries; and every batch that was issued
    is non-empty, carries one of those labels, and keeps the retry and
    resume policy of [base_ydl_opts]. *)
Theorem session_keeps_invariant (script : list (string * Console)) (s' : State) :
  session script initial_state = Some s' →
  1 ≤ MAX_WORKERS s'
  ∧ Forall (λ r, fr_desc r ∈ menu_labels) (FAILED_DOWNLOADS s')
  ∧ Forall (λ c, bc_urls c ≠ [] ∧ bc_desc c ∈ menu_labels ∧ keeps_base_policy (bc_opts c))
      (issued s').
Proof.
  assert (session_inv initial_state) as Hinit by (by repeat split).
  revert Hinit. generalize initial_state as s.
  induction script as [|[line typed] script IH]; intros s Hinv.
  - by intros [= <-].
  - cbn [session]. destruct (select line typed s) as [s1|] eqn:Hsel; [|done].
    cbn [mbind option_bind]. apply IH. by eapply select_keeps_inv.
Qed.

End session_invariant.

Lemma session_keeps_invariant_witness :
  ∃ s',
    @session fetcher_model pool_model host_model resolver_model urllib_model
      [ ("2", mkConsole ["https://a.example/1"; "https://a.example/bad"; ""] "" None);
        ("4", mkConsole ["https://www.youtube.com/playlist?list=TWO"] "" None);
        ("8", mkConsole [] "" (Some "0"));
        ("7", mkConsole [] "a" None);
        ("8", mkConsole [] "" (Some "3")) ]
      initial_state = Some s'
    ∧ 1 ≤ MAX_WORKERS s'
    ∧ Forall (λ r, fr_desc r ∈ menu_labels) (FAILED_DOWNLOADS s').
Proof.
  destruct (@session fetcher_model pool_model host_model resolver_model urllib_model
              [ ("2", mkConsole ["https://a.example/1"; "https://a.example/bad"; ""] "" None);
                ("4", mkConsole ["https://www.youtube.com/playlist?list=TWO"] "" None);
                ("8", mkConsole [] "" (Some "0"));
                ("7", mkConsole [] "a" None);
                ("8", mkConsole [] "" (Some "3")) ]
              initial_state) as [s'|] eqn:Hrun; [|vm_compute in Hrun; discriminate Hrun].
  exists s'. split; [reflexivity|].
  destruct (@session_keeps_invariant fetcher_model pool_model host_model resolver_model
              urllib_model _ s' Hrun) as (Hw & Hreg & _).
  split; [exact Hw|exact Hreg].
Defined.


(** ** A single-item entry, from the typed lines to the batch *)


